(** * The <Mutation /> component of react-apollo (src/Mutation.tsx)

    A shallow embedding of the component class and of the part of its
    environment that its behaviour depends on: the host (React) that
    constructs it, hands it new props and context, and merges partial
    states; and the remote client whose promises settle later, in any
    order.

    - Object references that the code only stores, passes on and compares
      by identity (documents, clients, functions, option objects) are
      handles of an abstract type with decidable equality.
    - A value that may be [undefined] is an [option].
    - A function that may throw returns a [result].
    - Whether React still has the component mounted, and whether a
      caller's callback returns or throws, are decided outside the class;
      the functions that depend on them take them as arguments.
    - [mostRecentMutationId] is a JavaScript number that starts at 0 and is
      only ever incremented by 1; it is modelled as an integer of [Z],
      which is exact for the first 2^53 invocations of one component. *)

From stdpp Require Import base option list gmap strings.
From Stdlib Require Import ZArith.

Local Open Scope Z_scope.

(** ** Exceptions *)

Inductive result (A : Type) : Type :=
| Ok (a : A)
| Throw (message : string).
Arguments Ok {A} a.
Arguments Throw {A} message.

#[global] Instance result_ret : MRet result := @Ok.
#[global] Instance result_bind : MBind result := λ A B f r,
  match r with
  | Ok a => f a
  | Throw message => Throw message
  end.

(** [invariant(condition, format)]: throws an error carrying [format]
    (neither message below has a [%s] to substitute) when the condition
    is false. *)
Definition invariant (condition : bool) (format : string) : result () :=
  if condition then Ok () else Throw format.

(** JavaScript truthiness of a possibly undefined object reference
    ([!!x]) and of a possibly undefined boolean. *)
Definition truthy_ref {A} (x : option A) : bool :=
  match x with Some _ => true | None => false end.

Definition truthy (b : option bool) : bool := default false b.

(** ** The parser's interface (./parser) *)

Module DocumentType.
Inductive t : Set := Query | Mutation | Subscription.

#[global] Instance eq_dec : EqDecision t.
Proof. solve_decision. Defined.
End DocumentType.

Record IDocumentDefinition := { type : DocumentType.t }.

(** The double-quote character of the missing-client message. *)
Definition dquote : string := String (Ascii.ascii_of_nat 34) EmptyString.

Section MutationComponent.

Context {TData ApolloError Client DocumentNode Obj Fn : Type}.
Context `{!EqDecision Client, !EqDecision DocumentNode,
          !EqDecision Obj, !EqDecision Fn}.

(** [parser] is imported from ./parser, which is not part of the file; the
    component only reads the [type] of what it returns. *)
Variable parser : DocumentNode → IDocumentDefinition.

(** ** Props, context, state *)

Record MutationProps := {
  mutation : DocumentNode;
  variables : option Obj;
  optimisticResponse : option Obj;
  refetchQueries : option Obj;
  update : option Fn;
  children : Fn;
  onCompleted : option Fn;
  onError : option Fn;
}.

Record MutationContext := { context_client : option Client }.

Record MutationState := {
  notCalled : bool;
  error : option ApolloError;
  data : option TData;
  loading : option bool;
}.

Record MutationResult := {
  result_loading : option bool;
  result_data : option TData;
  result_error : option ApolloError;
}.

(** An object literal handed to [setState]: a key is either absent
    ([None]) or present with a value, which may itself be [undefined]. *)
Record PartialState := {
  set_notCalled : option bool;
  set_error : option (option ApolloError);
  set_data : option (option TData);
  set_loading : option (option bool);
}.

(** [const initialState = { notCalled: true }] *)
Definition initialState : PartialState :=
  {| set_notCalled := Some true; set_error := None;
     set_data := None; set_loading := None |}.

(** Reading an object literal as a whole state ([this.state = o]): an
    absent key reads as [undefined]. *)
Definition as_state (o : PartialState) : MutationState :=
  {| notCalled := default false (set_notCalled o);
     error := default None (set_error o);
     data := default None (set_data o);
     loading := default None (set_loading o) |}.

(** React's [setState(partial)]: the keys of [partial] are merged into the
    current state, the other keys keep their value. *)
Definition merge_state (s : MutationState) (partial : PartialState)
  : MutationState :=
  {| notCalled := default (notCalled s) (set_notCalled partial);
     error := default (error s) (set_error partial);
     data := default (data s) (set_data partial);
     loading := default (loading s) (set_loading partial) |}.

(** [fbjs/lib/shallowEqual] on two props objects: the values under every
    key are compared with [Object.is], which on references is identity.
    (A key that is absent and a key that holds [undefined] are both
    [None] here.) *)
Definition shallowEqual (objA objB : MutationProps) : bool :=
  bool_decide (mutation objA = mutation objB)
  && bool_decide (variables objA = variables objB)
  && bool_decide (optimisticResponse objA = optimisticResponse objB)
  && bool_decide (refetchQueries objA = refetchQueries objB)
  && bool_decide (update objA = update objB)
  && bool_decide (children objA = children objB)
  && bool_decide (onCompleted objA = onCompleted objB)
  && bool_decide (onError objA = onError objB).

(** ** The component instance *)

Record Mutation := {
  props : MutationProps;
  client : option Client;
  mostRecentMutationId : Z;
  state : MutationState;
}.

Definition with_state (this : Mutation) (s : MutationState) : Mutation :=
  {| props := props this; client := client this;
     mostRecentMutationId := mostRecentMutationId this; state := s |}.

Definition with_client (this : Mutation) (c : option Client) : Mutation :=
  {| props := props this; client := c;
     mostRecentMutationId := mostRecentMutationId this;
     state := state this |}.

Definition with_mostRecentMutationId (this : Mutation) (n : Z) : Mutation :=
  {| props := props this; client := client this;
     mostRecentMutationId := n; state := state this |}.

Definition with_props (this : Mutation) (p : MutationProps) : Mutation :=
  {| props := p; client := client this;
     mostRecentMutationId := mostRecentMutationId this;
     state := state this |}.

(** [this.setState(partial)]. React merges the keys of [partial] into the
    state of a component it has mounted; on a component it has unmounted
    the call does nothing (React only warns). Whether the component is
    still mounted is known to React, not to the class: it is the argument
    [mounted] here and in every function that calls [setState]. *)
Definition setState (mounted : bool) (this : Mutation)
    (partial : PartialState) : Mutation :=
  if mounted then with_state this (merge_state (state this) partial)
  else this.

(** ** Validation *)

Definition kind_name (k : DocumentType.t) : string :=
  if decide (k = DocumentType.Query) then "query" else "subscription".

Definition document_message (k : DocumentType.t) : string :=
  "The <Mutation /> component requires a graphql mutation, but got a "
  +:+ kind_name k +:+ ".".

Definition context_message : string :=
  "Could not find " +:+ dquote +:+ "client" +:+ dquote
  +:+ " in the context of Mutation. Wrap the root component in an <ApolloProvider>".

Definition verifyDocumentIsMutation (mutation : DocumentNode) : result () :=
  let operation := parser mutation in
  invariant
    (bool_decide (type operation = DocumentType.Mutation))
    (document_message (type operation)).

Definition verifyContext (context : MutationContext) : result () :=
  invariant (truthy_ref (context_client context)) context_message.

(** ** Construction and reconfiguration *)

Definition constructor (props : MutationProps) (context : MutationContext)
  : result Mutation :=
  _ ← verifyContext context;
  let client := context_client context in
  _ ← verifyDocumentIsMutation (mutation props);
  mret {| props := props; client := client;
          mostRecentMutationId := 0; state := as_state initialState |}.

(** React calls [componentWillReceiveProps] on a mounted component only,
    so its [setState] takes effect. *)
Definition componentWillReceiveProps (this : Mutation)
    (nextProps : MutationProps) (nextContext : MutationContext)
  : result Mutation :=
  if shallowEqual (props this) nextProps
     && bool_decide (client this = context_client nextContext)
  then mret this
  else
    _ ← verifyDocumentIsMutation (mutation nextProps);
    if bool_decide (client this ≠ context_client nextContext)
    then mret (setState true
                 (with_client this (context_client nextContext))
                 initialState)
    else mret this.

(** ** Rendering *)

(** [render] calls [children(this.runMutation, result)]; the value is the
    function called and the [result] argument it receives. *)
Definition render_result (this : Mutation) : option MutationResult :=
  let s := state this in
  if notCalled s then None
  else Some {| result_loading := loading s; result_data := data s;
               result_error := error s |}.

Definition render (this : Mutation) : Fn * option MutationResult :=
  (children (props this), render_result this).

(** ** Running the mutation *)

(** The argument of [this.client.mutate]. *)
Record MutationOptions := {
  opt_mutation : DocumentNode;
  opt_variables : option Obj;
  opt_optimisticResponse : option Obj;
  opt_refetchQueries : option Obj;
  opt_update : option Fn;
}.

(** What the remote client's promise settles with: a response, of which
    the component reads [data], or a failure. The component reads
    [response.data] and stores it as it is, so a response that carries no
    data ([None]) leaves [undefined] in the state. *)
Record Response := { response_data : option TData }.

Inductive Outcome :=
| Resolved (response : Response)
| Rejected (e : ApolloError).

(** One invocation of a caller-supplied callback with its argument. *)
Inductive CallbackCall :=
| CompletedCall (f : Fn) (d : option TData)
| ErrorCall (f : Fn) (e : ApolloError).

(** A closure of the component that invokes a caller's callback
    ([callOncomplete], [callOnError]): the invocations it makes when it
    runs, and the exception that comes out of it when the callback
    throws. What is thrown is whatever [catch (e)] would receive. A
    callback is not taken to call back into the component. *)
Definition Callback : Type := list CallbackCall * option ApolloError.

(** How a function of the component that ran a callback ends: it returns;
    or the callback, called by the component itself, throws, and the
    exception goes to the caller of the function; or the callback throws
    while React is running it after a state update, and the exception is
    React's. *)
Inductive Raised :=
| NoThrow
| Thrown (e : ApolloError)
| ThrownInHost (e : ApolloError).

(** [callback()] *)
Definition call (callback : Callback) : list CallbackCall * Raised :=
  (callback.1, from_option Thrown NoThrow callback.2).

(** A call that [runMutation] has issued and that is suspended at its
    [await]: the client it was sent to, what it was sent, and the
    [mutationId] captured in its closure. *)
Record MutationCall := {
  call_client : option Client;
  call_options : MutationOptions;
  call_mutationId : Z;
}.

Definition onStartMutation (mounted : bool) (this : Mutation) : Mutation :=
  if negb (truthy (loading (state this)))
  then setState mounted this
         {| set_notCalled := Some false; set_error := Some None;
            set_data := Some None; set_loading := Some (Some true) |}
  else this.

(** [mutate], up to its [await]: the options read from the current props
    go to the current client. (Should no client be stored, the call of
    [this.client.mutate] throws inside the async function and the promise
    is rejected; here that is a call in flight like any other.) *)
Definition mutate (this : Mutation) : option Client * MutationOptions :=
  let p := props this in
  (client this,
   {| opt_mutation := mutation p; opt_variables := variables p;
      opt_optimisticResponse := optimisticResponse p;
      opt_refetchQueries := refetchQueries p; opt_update := update p |}).

(** [this.setState(partial, callback)]: on a mounted component React
    merges [partial] and then runs [callback]; on an unmounted one it
    drops both. *)
Definition setState_then (mounted : bool) (this : Mutation)
    (partial : PartialState) (callback : Callback)
  : Mutation * (list CallbackCall * Raised) :=
  if mounted
  then (setState mounted this partial,
        (callback.1, from_option ThrownInHost NoThrow callback.2))
  else (this, ([], NoThrow)).

(** [thrown] is what the caller's [onCompleted] throws when it is invoked,
    [None] when it returns. *)
Definition onCompletedMutation (mounted : bool) (thrown : option ApolloError)
    (this : Mutation) (response : Response) (mutationId : Z)
  : Mutation * (list CallbackCall * Raised) :=
  let data := response_data response in
  let callOncomplete : Callback :=
    match onCompleted (props this) with
    | Some f => ([CompletedCall f data], thrown)
    | None => ([], None)
    end in
  if mostRecentMutationId this =? mutationId
  then setState_then mounted this
         {| set_notCalled := None; set_error := None;
            set_data := Some data; set_loading := Some (Some false) |}
         callOncomplete
  else (this, call callOncomplete).

(** [thrown] is what the caller's [onError] throws when it is invoked. *)
Definition onMutationError (mounted : bool) (thrown : option ApolloError)
    (this : Mutation) (e : ApolloError) (mutationId : Z)
  : Mutation * (list CallbackCall * Raised) :=
  let apolloError := e in
  let callOnError : Callback :=
    match onError (props this) with
    | Some f => ([ErrorCall f apolloError], thrown)
    | None => ([], None)
    end in
  if mostRecentMutationId this =? mutationId
  then setState_then mounted this
         {| set_notCalled := None; set_error := Some (Some apolloError);
            set_data := None; set_loading := Some (Some false) |}
         callOnError
  else (this, call callOnError).

(** [runMutation] up to its [await]: the component after the synchronous
    part and the call now in flight. *)
Definition runMutation_issue (mounted : bool) (this : Mutation)
  : Mutation * MutationCall :=
  let this := onStartMutation mounted this in
  let this :=
    with_mostRecentMutationId this (mostRecentMutationId this + 1) in
  let mutationId := mostRecentMutationId this in
  let '(c, options) := mutate this in
  (this, {| call_client := c; call_options := options;
            call_mutationId := mutationId |}).

(** [runMutation] from its [await] on. On a response the [try] goes on
    with [onCompletedMutation]; an exception that comes out of it, which
    is one thrown by [onCompleted] called on the stale path, is caught
    like a failure of the call and handed with the same [mutationId] to
    [onMutationError], whose own callback is then taken to return. On a
    failure the [catch] runs [onMutationError]; an exception out of that
    leaves [runMutation], whose promise nobody holds. [thrown] is what the
    callback of the outcome throws, if it throws. [None]: the callback
    threw while React was running it, and what React does then is not in
    this file. *)
Definition runMutation_settle (mounted : bool) (thrown : option ApolloError)
    (this : Mutation) (outcome : Outcome) (mutationId : Z)
  : option (Mutation * list CallbackCall) :=
  match outcome with
  | Resolved response =>
      let '(this, (called, raised)) :=
        onCompletedMutation mounted thrown this response mutationId in
      match raised with
      | NoThrow => Some (this, called)
      | Thrown e =>
          let '(this, (called', _)) :=
            onMutationError mounted None this e mutationId in
          Some (this, called ++ called')
      | ThrownInHost _ => None
      end
  | Rejected e =>
      let '(this, (called, raised)) :=
        onMutationError mounted thrown this e mutationId in
      match raised with
      | NoThrow | Thrown _ => Some (this, called)
      | ThrownInHost _ => None
      end
  end.

(** What a settlement whose callback returns does to the component, and
    the callbacks it invokes. *)
Definition settled (mounted : bool) (this : Mutation) (outcome : Outcome)
    (mutationId : Z) : Mutation * list CallbackCall :=
  match outcome with
  | Resolved response =>
      let r := onCompletedMutation mounted None this response mutationId in
      (r.1, r.2.1)
  | Rejected e =>
      let r := onMutationError mounted None this e mutationId in
      (r.1, r.2.1)
  end.

(** ** The component in its host *)

(** The component, the calls it has in flight (by [mutationId]) and the
    callbacks invoked so far, oldest first. *)
Record World := {
  component : Mutation;
  inflight : gmap Z MutationCall;
  callbacks : list CallbackCall;
}.

(** What happens to the component: [trigger] is called; a call in flight
    settles and the callback of its outcome returns ([Settle]) or throws
    ([SettleThrowing]); the host hands over new props and context. *)
Inductive Event :=
| Trigger
| Settle (mutationId : Z) (outcome : Outcome)
| Reconfigure (nextProps : MutationProps) (nextContext : MutationContext)
| SettleThrowing (mutationId : Z) (outcome : Outcome) (thrown : ApolloError).

Definition mount (this : Mutation) : World :=
  {| component := this; inflight := ∅; callbacks := [] |}.

Definition settle_in_flight (mounted : bool) (thrown : option ApolloError)
    (w : World) (mutationId : Z) (outcome : Outcome) : option World :=
  match inflight w !! mutationId with
  | None => None
  | Some _ =>
      match runMutation_settle mounted thrown (component w) outcome
              mutationId with
      | Some (this, called) =>
          Some {| component := this;
                  inflight := delete mutationId (inflight w);
                  callbacks := callbacks w ++ called |}
      | None => None
      end
  end.

(** One event, on a component that React has mounted or has unmounted.
    [None]: the event cannot happen (no call with that [mutationId] is in
    flight; React does not reconfigure a component it has unmounted), the
    component throws, or a callback throws while React runs it. React
    assigns [this.props] after [componentWillReceiveProps] has returned.
    The trigger function, once handed out, can still be called after the
    unmount. *)
Definition step (mounted : bool) (w : World) (ev : Event) : option World :=
  match ev with
  | Trigger =>
      let '(this, call) := runMutation_issue mounted (component w) in
      Some {| component := this;
              inflight := <[call_mutationId call := call]> (inflight w);
              callbacks := callbacks w |}
  | Settle mutationId outcome =>
      settle_in_flight mounted None w mutationId outcome
  | SettleThrowing mutationId outcome thrown =>
      settle_in_flight mounted (Some thrown) w mutationId outcome
  | Reconfigure nextProps nextContext =>
      if mounted then
        match componentWillReceiveProps (component w) nextProps
                nextContext with
        | Ok this =>
            Some {| component := with_props this nextProps;
                    inflight := inflight w;
                    callbacks := callbacks w |}
        | Throw _ => None
        end
      else None
  end.

(** One event of the mounted component. *)
Definition host_step (w : World) (ev : Event) : option World :=
  step true w ev.


Fixpoint run (w : World) (evs : list Event) : option World :=
  match evs with
  | [] => Some w
  | ev :: evs =>
      match host_step w ev with
      | Some w' => run w' evs
      | None => None
      end
  end.


(** ** Notions used in the statements *)

(** The state of an outcome: [loading] false, the data of the response
    (none when it carried none) or the error of the rejection, the other
    one absent; [hidden] is its [notCalled]. *)
Definition outcome_state (hidden : bool) (o : Outcome) : MutationState :=
  match o with
  | Resolved response =>
      {| notCalled := hidden; error := None;
         data := response_data response; loading := Some false |}
  | Rejected e =>
      {| notCalled := hidden; error := Some e;
         data := None; loading := Some false |}
  end.

(** The tokens of [n] calls issued in a row after the counter was [c]:
    [c + 1], ..., [c + n]. *)
Definition issued_tokens (c : Z) (n : nat) : list Z :=
  (λ i : nat, c + 1 + Z.of_nat i) <$> seq 0 n.

(** The four shapes a state can have, on its fields [loading], [data] and
    [error]: nothing yet (only while [notCalled]), loading, succeeded
    (with the data of the response, if it carried any), failed. *)
Definition well_shaped (s : MutationState) : bool :=
  match loading s, data s, error s with
  | None, None, None => notCalled s
  | Some true, None, None => true
  | Some false, _, None => true
  | Some false, None, Some _ => true
  | _, _, _ => false
  end.

(** What holds of the component and its calls in flight at every moment
    of its life: the state has one of the four shapes, no call in flight
    has a token above the counter, the state is loading as long as the
    most recent call is in flight, and the document is a mutation. *)
Record world_ok (w : World) : Prop := {
  ok_shape : well_shaped (state (component w)) = true;
  ok_tokens : ∀ id call,
    inflight w !! id = Some call → id ≤ mostRecentMutationId (component w);
  ok_pending :
    is_Some (inflight w !! mostRecentMutationId (component w)) →
    loading (state (component w)) = Some true;
  ok_document :
    type (parser (mutation (props (component w)))) = DocumentType.Mutation;
}.

(** Since the client last changed, when the counter was [c0]: the counter
    has not gone down, and the state is either still hidden or a call was
    issued after the change. *)
Definition since_change (c0 : Z) (w : World) : Prop :=
  c0 ≤ mostRecentMutationId (component w)
  ∧ (notCalled (state (component w)) = true
     ∨ c0 < mostRecentMutationId (component w)).

Definition settle_event (s : Z * Outcome) : Event := Settle s.1 s.2.

(** ** Validation and construction *)

Lemma context_message_not_document_message (k : DocumentType.t) :
  context_message ≠ document_message k.
Proof. destruct k; discriminate. Qed.

Lemma verifyDocumentIsMutation_mutation (d : DocumentNode) :
  type (parser d) = DocumentType.Mutation →
  verifyDocumentIsMutation d = Ok ().
Proof.
  intros Hk. unfold verifyDocumentIsMutation, invariant.
  by rewrite bool_decide_eq_true_2.
Qed.

Lemma verifyDocumentIsMutation_other (d : DocumentNode) :
  type (parser d) ≠ DocumentType.Mutation →
  verifyDocumentIsMutation d = Throw (document_message (type (parser d))).
Proof.
  intros Hk. unfold verifyDocumentIsMutation, invariant.
  by rewrite bool_decide_eq_false_2.
Qed.

Lemma constructor_Ok (p : MutationProps) (context : MutationContext)
    (this : Mutation) :
  constructor p context = Ok this →
  is_Some (context_client context)
  ∧ type (parser (mutation p)) = DocumentType.Mutation
  ∧ this = {| props := p; client := context_client context;
              mostRecentMutationId := 0; state := as_state initialState |}.
Proof.
  unfold constructor, verifyContext, verifyDocumentIsMutation, invariant.
  destruct (context_client context) as [c|]; cbn; [|discriminate].
  case_bool_decide as Hk; cbn; [|discriminate].
  intros [= <-]. eauto.
Qed.

(** C9: with no client in the context the constructor throws, whatever
    the props are, and what it throws is the missing-client error, whose
    message is not that of the document check for any kind. *)
Theorem constructor_without_client (p : MutationProps)
    (context : MutationContext) :
  context_client context = None →
  constructor p context = Throw context_message
  ∧ verifyContext context = Throw context_message
  ∧ ∀ k, context_message ≠ document_message k.
Proof.
  intros Hc. unfold constructor, verifyContext, invariant. rewrite Hc. cbn.
  split_and!; [done..|]. apply context_message_not_document_message.
Qed.

(** C10: when the client is missing and the document is not a mutation
    either, the constructor throws the missing-client error, although the
    document check alone would throw its own, different error. *)
Theorem missing_client_reported_before_document (p : MutationProps)
    (context : MutationContext) :
  context_client context = None →
  type (parser (mutation p)) ≠ DocumentType.Mutation →
  constructor p context = Throw context_message
  ∧ verifyDocumentIsMutation (mutation p)
    = Throw (document_message (type (parser (mutation p))))
  ∧ document_message (type (parser (mutation p))) ≠ context_message.
Proof.
  intros Hc Hk. split_and!.
  - unfold constructor, verifyContext, invariant. by rewrite Hc.
  - by apply verifyDocumentIsMutation_other.
  - intros Heq. by eapply context_message_not_document_message.
Qed.

(** ** Stale settlements and callbacks *)

(** C2: a call that settles, with a response or with a failure, when its
    token is not the counter's value leaves the state, all four fields of
    it, as it was; mounted or not, and whatever its callback does. *)
Theorem stale_settlement_keeps_state (mounted : bool)
    (thrown : option ApolloError) (this : Mutation) (response : Response)
    (e : ApolloError) (mutationId : Z) :
  mutationId ≠ mostRecentMutationId this →
  state (onCompletedMutation mounted thrown this response mutationId).1
  = state this
  ∧ state (onMutationError mounted thrown this e mutationId).1 = state this.
Proof.
  intros Hne. unfold onCompletedMutation, onMutationError.
  destruct (Z.eqb_spec (mostRecentMutationId this) mutationId); [congruence|].
  done.
Qed.

(** Both handlers at once: case on the outcome, then on the token check. *)
Ltac settle_cases o :=
  destruct o; cbn;
  unfold onCompletedMutation, onMutationError, setState_then, call.

Lemma runMutation_settle_returns (mounted : bool) (this : Mutation)
    (o : Outcome) (mutationId : Z) :
  runMutation_settle mounted None this o mutationId
  = Some (settled mounted this o mutationId).
Proof.
  settle_cases o; destruct (_ =? _), mounted; cbn;
    by repeat (destruct (onCompleted _) || destruct (onError _)).
Qed.

(** A settlement that is followed changes the component as one whose
    callback returns does, whatever the callback throws. *)
Lemma runMutation_settle_component (mounted : bool)
    (thrown : option ApolloError) (this this' : Mutation) (o : Outcome)
    (mutationId : Z) (called : list CallbackCall) :
  runMutation_settle mounted thrown this o mutationId = Some (this', called) →
  this' = (settled mounted this o mutationId).1.
Proof.
  settle_cases o; destruct (_ =? _) eqn:Htoken, mounted; cbn;
    repeat (destruct (onCompleted _) || destruct (onError _));
    destruct thrown; cbn; rewrite ?Htoken; cbn; try done;
    by intros [= <- _].
Qed.

Lemma settle_stale (mounted : bool) (this : Mutation) (o : Outcome)
    (mutationId : Z) :
  mutationId ≠ mostRecentMutationId this →
  (settled mounted this o mutationId).1 = this.
Proof.
  intros Hne. settle_cases o;
    by destruct (Z.eqb_spec (mostRecentMutationId this) mutationId).
Qed.

Lemma settle_current (this : Mutation) (o : Outcome) :
  (settled true this o (mostRecentMutationId this)).1
  = setState true this
      match o with
      | Resolved response =>
          {| set_notCalled := None; set_error := None;
             set_data := Some (response_data response);
             set_loading := Some (Some false) |}
      | Rejected e =>
          {| set_notCalled := None; set_error := Some (Some e);
             set_data := None; set_loading := Some (Some false) |}
      end.
Proof.
  settle_cases o;
    by rewrite Z.eqb_refl.
Qed.

Lemma settle_callbacks (this : Mutation) (o : Outcome) (mutationId : Z) :
  (settled true this o mutationId).2
  = match o with
    | Resolved response =>
        match onCompleted (props this) with
        | Some f => [CompletedCall f (response_data response)]
        | None => []
        end
    | Rejected e =>
        match onError (props this) with
        | Some f => [ErrorCall f e]
        | None => []
        end
    end.
Proof.
  settle_cases o; destruct (_ =? _); cbn;
    by repeat (destruct (onCompleted _) || destruct (onError _)).
Qed.


(** The stale path when the callback throws: an exception from
    [onCompleted] runs [onError] as well; one from [onError] changes
    nothing. *)
Lemma runMutation_settle_thrown_stale (mounted : bool) (thrown : ApolloError)
    (this : Mutation) (o : Outcome) (mutationId : Z) :
  mutationId ≠ mostRecentMutationId this →
  runMutation_settle mounted (Some thrown) this o mutationId
  = Some (this,
          match o with
          | Resolved response =>
              match onCompleted (props this) with
              | Some f =>
                  CompletedCall f (response_data response)
                  :: match onError (props this) with
                     | Some g => [ErrorCall g thrown]
                     | None => []
                     end
              | None => []
              end
          | Rejected e =>
              match onError (props this) with
              | Some f => [ErrorCall f e]
              | None => []
              end
          end).
Proof.
  intros Hne. settle_cases o;
    destruct (Z.eqb_spec (mostRecentMutationId this) mutationId) as [|_];
    try congruence; cbn;
    repeat (destruct (onCompleted _) || destruct (onError _)); cbn; try done.
  all: destruct (Z.eqb_spec (mostRecentMutationId this) mutationId);
    by try congruence.
Qed.

Lemma settle_keeps (mounted : bool) (this : Mutation) (o : Outcome)
    (mutationId : Z) :
  let this' := (settled mounted this o mutationId).1 in
  props this' = props this ∧ client this' = client this
  ∧ mostRecentMutationId this' = mostRecentMutationId this
  ∧ notCalled (state this') = notCalled (state this).
Proof.
  settle_cases o;
    by destruct (_ =? _), mounted.
Qed.

Lemma settle_in_flight_inv (mounted : bool) (thrown : option ApolloError)
    (w w' : World) (mutationId : Z) (o : Outcome) :
  settle_in_flight mounted thrown w mutationId o = Some w' →
  is_Some (inflight w !! mutationId)
  ∧ ∃ called,
      runMutation_settle mounted thrown (component w) o mutationId
      = Some ((settled mounted (component w) o mutationId).1, called)
      ∧ w' = {| component := (settled mounted (component w) o mutationId).1;
                inflight := delete mutationId (inflight w);
                callbacks := callbacks w ++ called |}.
Proof.
  unfold settle_in_flight.
  destruct (inflight w !! mutationId) as [call|]; [|done].
  destruct (runMutation_settle _ _ _ _ _) as [[this called]|] eqn:Hsettle;
    [|done].
  pose proof (runMutation_settle_component _ _ _ _ _ _ _ Hsettle) as ->.
  intros [= <-]. eauto.
Qed.

Lemma host_step_Settle (w : World) (mutationId : Z) (call : MutationCall)
    (o : Outcome) :
  inflight w !! mutationId = Some call →
  host_step w (Settle mutationId o)
  = Some {| component := (settled true (component w) o mutationId).1;
            inflight := delete mutationId (inflight w);
            callbacks :=
              callbacks w ++ (settled true (component w) o mutationId).2 |}.
Proof.
  intros Hin. unfold host_step, step, settle_in_flight. rewrite Hin.
  rewrite runMutation_settle_returns. by destruct (settled _ _ _ _).
Qed.

Lemma host_step_Settle_inv (w w' : World) (mutationId : Z) (o : Outcome) :
  host_step w (Settle mutationId o) = Some w' →
  is_Some (inflight w !! mutationId)
  ∧ w' = {| component := (settled true (component w) o mutationId).1;
            inflight := delete mutationId (inflight w);
            callbacks :=
              callbacks w ++ (settled true (component w) o mutationId).2 |}.
Proof.
  destruct (inflight w !! mutationId) as [call|] eqn:Hin.
  - rewrite (host_step_Settle _ _ _ _ Hin). intros [= <-]. eauto.
  - unfold host_step, step, settle_in_flight. by rewrite Hin.
Qed.

(** A settlement whose callback throws, when the model follows it, leaves
    the component and the calls in flight as the settlement whose callback
    returns does. *)
Lemma host_step_SettleThrowing_inv (w w' : World) (mutationId : Z)
    (o : Outcome) (thrown : ApolloError) :
  host_step w (SettleThrowing mutationId o thrown) = Some w' →
  ∃ w0, host_step w (Settle mutationId o) = Some w0
    ∧ component w' = component w0 ∧ inflight w' = inflight w0.
Proof.
  intros ([call Hin] & called & _ & ->)%settle_in_flight_inv.
  eexists. split; [by eapply host_step_Settle|done].
Qed.

Lemma runMutation_issue_token (mounted : bool) (this : Mutation) :
  call_mutationId (runMutation_issue mounted this).2
  = mostRecentMutationId this + 1.
Proof.
  unfold runMutation_issue, mutate, onStartMutation, setState.
  by destruct (negb _), mounted.
Qed.

Lemma host_step_Trigger (w : World) :
  host_step w Trigger
  = Some {| component := (runMutation_issue true (component w)).1;
            inflight :=
              <[mostRecentMutationId (component w) + 1
                := (runMutation_issue true (component w)).2]> (inflight w);
            callbacks := callbacks w |}.
Proof.
  rewrite <- (runMutation_issue_token true (component w)).
  unfold host_step, step. by destruct (runMutation_issue _ _).
Qed.

Lemma host_step_Reconfigure_inv (w w' : World) (nextProps : MutationProps)
    (nextContext : MutationContext) :
  host_step w (Reconfigure nextProps nextContext) = Some w' →
  ∃ this,
    componentWillReceiveProps (component w) nextProps nextContext = Ok this
    ∧ w' = {| component := with_props this nextProps;
              inflight := inflight w; callbacks := callbacks w |}.
Proof.
  unfold host_step, step.
  destruct (componentWillReceiveProps _ _ _); [|done].
  intros [= <-]. eauto.
Qed.


(** ** Reconfiguration *)

Lemma componentWillReceiveProps_spec (this : Mutation)
    (nextProps : MutationProps) (nextContext : MutationContext) :
  type (parser (mutation (props this))) = DocumentType.Mutation →
  match componentWillReceiveProps this nextProps nextContext with
  | Ok this' =>
      type (parser (mutation nextProps)) = DocumentType.Mutation
      ∧ this' = (if bool_decide (client this ≠ context_client nextContext)
                 then setState true (with_client this (context_client nextContext))
                        initialState
                 else this)
  | Throw message =>
      type (parser (mutation nextProps)) ≠ DocumentType.Mutation
      ∧ message = document_message (type (parser (mutation nextProps)))
  end.
Proof.
  intros Hdoc. unfold componentWillReceiveProps.
  destruct (shallowEqual _ _ && _) eqn:Hsame.
  - apply andb_prop in Hsame as [Heq Hclient].
    apply bool_decide_eq_true_1 in Hclient.
    unfold shallowEqual in Heq. repeat apply andb_prop in Heq as [Heq _].
    apply bool_decide_eq_true_1 in Heq. cbn. rewrite <- Heq. split; [done|].
    by rewrite bool_decide_eq_false_2 by (intros ?; done).
  - destruct (decide (type (parser (mutation nextProps))
                      = DocumentType.Mutation)) as [Hk|Hk].
    + rewrite verifyDocumentIsMutation_mutation by done. cbn.
      by destruct (bool_decide (client this ≠ _)).
    + rewrite verifyDocumentIsMutation_other by done. by cbn.
Qed.

Lemma componentWillReceiveProps_client_change (this : Mutation)
    (nextProps : MutationProps) (nextContext : MutationContext) :
  client this ≠ context_client nextContext →
  componentWillReceiveProps this nextProps nextContext
  = (_ ← verifyDocumentIsMutation (mutation nextProps);
     mret (setState true (with_client this (context_client nextContext))
                    initialState)).
Proof.
  intros Hne. unfold componentWillReceiveProps.
  rewrite (bool_decide_eq_false_2 (client this = _)) by done.
  rewrite andb_false_r. by rewrite bool_decide_eq_true_2.
Qed.

(** C6: a reconfiguration under which the client of the context is not the
    stored one, and whose document passes the check, stores the new client
    and leaves a state for which [render] passes no result, whatever the
    state was and whatever calls are in flight, which stay in flight; when
    the document does not pass the check the reconfiguration throws. *)
Theorem client_change_resets (w : World) (nextProps : MutationProps)
    (nextContext : MutationContext) :
  client (component w) ≠ context_client nextContext →
  (type (parser (mutation nextProps)) = DocumentType.Mutation →
   ∃ w', host_step w (Reconfigure nextProps nextContext) = Some w'
     ∧ notCalled (state (component w')) = true
     ∧ render (component w') = (children nextProps, None)
     ∧ client (component w') = context_client nextContext
     ∧ inflight w' = inflight w)
  ∧ (type (parser (mutation nextProps)) ≠ DocumentType.Mutation →
     componentWillReceiveProps (component w) nextProps nextContext
     = Throw (document_message (type (parser (mutation nextProps))))).
Proof.
  intros Hne. split; intros Hk.
  - unfold host_step, step.
    rewrite componentWillReceiveProps_client_change by done.
    rewrite verifyDocumentIsMutation_mutation by done. cbn. eauto 10.
  - rewrite componentWillReceiveProps_client_change by done.
    by rewrite verifyDocumentIsMutation_other.
Qed.

(** ** The invariant of a mounted component *)

Lemma truthy_loading (s : MutationState) :
  truthy (loading s) = true ↔ loading s = Some true.
Proof. destruct (loading s) as [[]|]; cbn; naive_solver. Qed.

Lemma onStartMutation_spec (this : Mutation) :
  onStartMutation true this
  = if truthy (loading (state this)) then this
    else with_state this
           {| notCalled := false; error := None; data := None;
              loading := Some true |}.
Proof. unfold onStartMutation. by destruct (truthy _). Qed.

Lemma onStartMutation_keeps (this : Mutation) :
  props (onStartMutation true this) = props this
  ∧ client (onStartMutation true this) = client this
  ∧ mostRecentMutationId (onStartMutation true this) = mostRecentMutationId this.
Proof. rewrite onStartMutation_spec. by destruct (truthy _). Qed.

Lemma onStartMutation_loading (this : Mutation) :
  loading (state (onStartMutation true this)) = Some true.
Proof.
  rewrite onStartMutation_spec. destruct (truthy _) eqn:Hl; [|done].
  by apply truthy_loading.
Qed.

Lemma onStartMutation_shaped (this : Mutation) :
  well_shaped (state this) = true →
  well_shaped (state (onStartMutation true this)) = true.
Proof. rewrite onStartMutation_spec. by destruct (truthy _). Qed.

Lemma runMutation_issue_component (this : Mutation) :
  (runMutation_issue true this).1
  = with_mostRecentMutationId (onStartMutation true this)
      (mostRecentMutationId this + 1).
Proof.
  unfold runMutation_issue, mutate. rewrite onStartMutation_spec.
  by destruct (truthy _).
Qed.

Lemma well_shaped_loading (s : MutationState) :
  well_shaped s = true → loading s = Some true →
  data s = None ∧ error s = None.
Proof.
  unfold well_shaped. intros Hs Hl. rewrite Hl in Hs.
  by destruct (data s), (error s).
Qed.

(** The write of the most recent call, on a state that is loading. *)
Lemma settle_current_state (this : Mutation) (o : Outcome) :
  well_shaped (state this) = true →
  loading (state this) = Some true →
  state (settled true this o (mostRecentMutationId this)).1
  = outcome_state (notCalled (state this)) o.
Proof.
  intros Hs Hl. destruct (well_shaped_loading _ Hs Hl) as [Hd He].
  rewrite settle_current. unfold setState, merge_state, outcome_state.
  destruct o; cbn; by rewrite ?Hd, ?He.
Qed.

Lemma outcome_state_shaped (hidden : bool) (o : Outcome) :
  well_shaped (outcome_state hidden o) = true.
Proof. by destruct o as [[[?|]]|?]. Qed.

Lemma well_shaped_hidden (s : MutationState) :
  well_shaped s = true → well_shaped (merge_state s initialState) = true.
Proof.
  unfold well_shaped, merge_state. cbn.
  by destruct (loading s) as [[]|], (data s), (error s).
Qed.

Lemma mount_ok (p : MutationProps) (context : MutationContext)
    (this : Mutation) :
  constructor p context = Ok this → world_ok (mount this).
Proof.
  intros (_ & Hk & ->)%constructor_Ok. split; cbn; try done.
  intros [? ?]. done.
Qed.

Lemma world_ok_ext (w w' : World) :
  component w' = component w → inflight w' = inflight w →
  world_ok w → world_ok w'.
Proof. intros Hc Hi [? ? ? ?]. split; by rewrite ?Hc, ?Hi. Qed.

Lemma host_step_Settle_ok (w w' : World) (id : Z) (o : Outcome) :
  world_ok w → host_step w (Settle id o) = Some w' → world_ok w'.
Proof.
  intros [Hshape Htok Hpend Hdoc] [[call Hin] ->]%host_step_Settle_inv.
  destruct (settle_keeps true (component w) o id) as (Hp & _ & Hc & _).
  split; cbn [component inflight]; rewrite ?Hp, ?Hc; [| |  |done].
  - destruct (decide (id = mostRecentMutationId (component w))) as [->|Hne].
    + rewrite settle_current_state by eauto. apply outcome_state_shaped.
    + by rewrite settle_stale.
  - intros id' call'. rewrite lookup_delete. case_decide; [done|].
    apply Htok.
  - destruct (decide (id = mostRecentMutationId (component w))) as [->|Hne].
    + rewrite lookup_delete_eq. by intros [? ?].
    + rewrite lookup_delete_ne by done. by rewrite settle_stale.
Qed.

Lemma host_step_ok (w w' : World) (ev : Event) :
  world_ok w → host_step w ev = Some w' → world_ok w'.
Proof.
  intros Hok. pose proof Hok as [Hshape Htok Hpend Hdoc].
  destruct ev as [|id o|nextProps nextContext|id o thrown].
  - rewrite host_step_Trigger. intros [= <-].
    split; cbn [component inflight]; rewrite ?runMutation_issue_component.
    + by apply onStartMutation_shaped.
    + intros id call. cbn [mostRecentMutationId with_mostRecentMutationId].
      destruct (onStartMutation_keeps (component w)) as (_ & _ & ->).
      rewrite lookup_insert. case_decide.
      * intros _. subst. lia.
      * intros Hin%Htok. lia.
    + intros _. apply onStartMutation_loading.
    + cbn [props with_mostRecentMutationId].
      by destruct (onStartMutation_keeps (component w)) as (-> & _).
  - by apply host_step_Settle_ok.
  - intros (this & Hcwrp & ->)%host_step_Reconfigure_inv.
    pose proof (componentWillReceiveProps_spec (component w) nextProps
                  nextContext Hdoc) as Hspec.
    rewrite Hcwrp in Hspec. destruct Hspec as [Hk ->].
    split; cbn [component inflight with_props]; [| | |done].
    + case_bool_decide; [|done]. by apply well_shaped_hidden.
    + intros id call Hin%Htok. by case_bool_decide.
    + case_bool_decide; [|done]. cbn. intros Hin. by apply Hpend.
  - intros (w0 & Hw0 & Hc & Hi)%host_step_SettleThrowing_inv.
    eapply world_ok_ext; [done..|]. by eapply host_step_Settle_ok.
Qed.

Lemma run_ok (evs : list Event) (w w' : World) :
  world_ok w → run w evs = Some w' → world_ok w'.
Proof.
  revert w. induction evs as [|ev evs IH]; intros w Hok; cbn.
  - by intros [= <-].
  - destruct (host_step w ev) as [w1|] eqn:Hstep; [|done].
    apply IH. by eapply host_step_ok.
Qed.

Lemma reachable_ok (p : MutationProps) (context : MutationContext)
    (this : Mutation) (evs : list Event) (w : World) :
  constructor p context = Ok this → run (mount this) evs = Some w →
  world_ok w.
Proof. intros Hc Hrun. eapply run_ok; [|done]. by eapply mount_ok. Qed.


(** ** The document check *)

Lemma document_message_names_kind (k : DocumentType.t) :
  k ≠ DocumentType.Mutation →
  (k = DocumentType.Query
   ∧ document_message k
     = "The <Mutation /> component requires a graphql mutation, but got a query.")
  ∨ (k = DocumentType.Subscription
     ∧ document_message k
       = "The <Mutation /> component requires a graphql mutation, but got a subscription.").
Proof. destruct k; [by left|done|by right]. Qed.

(** C5, as the code has it: with a client in the context, constructing
    with a document that is not a mutation throws, and so does every
    reconfiguration of a constructed component with such a document, also
    under an unchanged client; the message names the kind, query or
    subscription. No component exists after the first, and the host takes
    no further step after the second. *)
Theorem non_mutation_document_rejected
    (p : MutationProps) (context : MutationContext)
    (p0 : MutationProps) (context0 : MutationContext) (this : Mutation)
    (evs : list Event) (w : World)
    (nextProps : MutationProps) (nextContext : MutationContext) :
  is_Some (context_client context) →
  type (parser (mutation p)) ≠ DocumentType.Mutation →
  constructor p0 context0 = Ok this →
  run (mount this) evs = Some w →
  type (parser (mutation nextProps)) ≠ DocumentType.Mutation →
  let k := type (parser (mutation p)) in
  let k' := type (parser (mutation nextProps)) in
  constructor p context = Throw (document_message k)
  ∧ componentWillReceiveProps (component w) nextProps nextContext
    = Throw (document_message k')
  ∧ host_step w (Reconfigure nextProps nextContext) = None
  ∧ (∀ k, k ≠ DocumentType.Mutation →
       (k = DocumentType.Query
        ∧ document_message k
          = "The <Mutation /> component requires a graphql mutation, but got a query.")
       ∨ (k = DocumentType.Subscription
          ∧ document_message k
            = "The <Mutation /> component requires a graphql mutation, but got a subscription.")).
Proof.
  intros [c Hc] Hk Hthis Hrun Hk' k k'.
  assert (componentWillReceiveProps (component w) nextProps nextContext
          = Throw (document_message k')) as Hthrow.
  { pose proof (componentWillReceiveProps_spec (component w) nextProps
                  nextContext
                  (ok_document _ (reachable_ok _ _ _ _ _ Hthis Hrun))) as Hspec.
    destruct (componentWillReceiveProps _ _ _) as [?|message].
    - by destruct Hspec.
    - by destruct Hspec as [_ ->]. }
  split_and!.
  - unfold constructor, verifyContext, invariant. rewrite Hc. cbn.
    by rewrite verifyDocumentIsMutation_other.
  - done.
  - unfold host_step, step. by rewrite Hthrow.
  - apply document_message_names_kind.
Qed.

(** ** Calls issued in a row *)

Lemma run_triggers (n : nat) (w : World) :
  ∃ w1, run w (replicate n Trigger) = Some w1
    ∧ mostRecentMutationId (component w1)
      = mostRecentMutationId (component w) + Z.of_nat n
    ∧ state (component w1)
      = (if n is O then state (component w)
         else state (onStartMutation true (component w)))
    ∧ (∀ id, mostRecentMutationId (component w) < id
             ≤ mostRecentMutationId (component w) + Z.of_nat n →
             is_Some (inflight w1 !! id))
    ∧ (∀ id, is_Some (inflight w !! id) → is_Some (inflight w1 !! id)).
Proof.
  revert w. induction n as [|n IH]; intros w.
  - exists w. split_and!; [done|lia|done|lia|done].
  - cbn [replicate run]. rewrite host_step_Trigger.
    set (w' := {| component := _ |}).
    destruct (IH w') as (w1 & Hrun & Hc & Hs & Hnew & Hold).
    assert (mostRecentMutationId (component w')
            = mostRecentMutationId (component w) + 1) as Hc'.
    { unfold w'. cbn [component]. rewrite runMutation_issue_component.
      done. }
    assert (state (component w') = state (onStartMutation true (component w)))
      as Hs'.
    { unfold w'. cbn [component]. by rewrite runMutation_issue_component. }
    assert (state (onStartMutation true (component w'))
            = state (onStartMutation true (component w))) as Hs''.
    { rewrite onStartMutation_spec.
      rewrite (proj2 (truthy_loading (state (component w')))); [done|].
      rewrite Hs'. apply onStartMutation_loading. }
    exists w1. split_and!; [done|lia| | |].
    + rewrite Hs. destruct n; congruence.
    + intros id Hid.
      destruct (decide (id = mostRecentMutationId (component w) + 1))
        as [->|Hne].
      * apply Hold. unfold w'. cbn [inflight]. rewrite lookup_insert_eq.
        eauto.
      * apply Hnew. lia.
    + intros id Hin. apply Hold. unfold w'. cbn [inflight].
      rewrite lookup_insert_is_Some.
      destruct (decide (mostRecentMutationId (component w) + 1 = id)); eauto.
Qed.

Lemma issued_tokens_elem (c : Z) (n : nat) (id : Z) :
  id ∈ issued_tokens c n ↔ c < id ≤ c + Z.of_nat n.
Proof.
  unfold issued_tokens. rewrite list_elem_of_fmap. split.
  - intros (i & -> & Hi%elem_of_seq). lia.
  - intros Hid. exists (Z.to_nat (id - c - 1)). split; [lia|].
    apply elem_of_seq. lia.
Qed.

Lemma issued_tokens_NoDup (c : Z) (n : nat) : NoDup (issued_tokens c n).
Proof.
  unfold issued_tokens. apply NoDup_fmap_2; [|apply NoDup_seq].
  intros i j. lia.
Qed.

(** Calls in flight settling one after the other, each once, in any
    order: all of them can settle, and the state at the end is the one
    written by the most recent call if it is among them, the state at the
    start if it is not. *)
Lemma run_settlements (ss : list (Z * Outcome)) (w : World) :
  world_ok w →
  NoDup ss.*1 →
  (∀ id, id ∈ ss.*1 → is_Some (inflight w !! id)) →
  ∃ w', run w (settle_event <$> ss) = Some w'
    ∧ (∀ o, (mostRecentMutationId (component w), o) ∈ ss →
         state (component w')
         = outcome_state (notCalled (state (component w))) o)
    ∧ (mostRecentMutationId (component w) ∉ ss.*1 →
       state (component w') = state (component w)).
Proof.
  revert w. induction ss as [|[id o] ss IH]; intros w Hok Hdup Hin.
  - exists w. split_and!; [done| |done]. intros o Ho. by apply elem_of_nil in Ho.
  - rewrite fmap_cons in Hdup. apply NoDup_cons in Hdup as [Hid Hdup].
    cbn [fst] in Hid.
    destruct (Hin id) as [call Hcall]; [rewrite fmap_cons; left|].
    rewrite fmap_cons. unfold settle_event at 1. cbn [run fst snd].
    rewrite (host_step_Settle _ _ _ _ Hcall).
    set (w1 := {| component := _ |}).
    assert (world_ok w1) as Hok1.
    { eapply host_step_ok; [exact Hok|]. by eapply host_step_Settle. }
    destruct (settle_keeps true (component w) o id) as (_ & _ & Hc & Hnc).
    destruct (IH w1 Hok1 Hdup) as (w' & Hrun & Hlast & Hrest).
    { intros id' Hid'. unfold w1. cbn [inflight].
      rewrite lookup_delete_ne by (intros ->; done).
      apply Hin. rewrite fmap_cons. by right. }
    exists w'. split; [done|].
    unfold w1 in Hlast, Hrest. cbn [component] in Hlast, Hrest.
    rewrite Hc in Hlast, Hrest. rewrite Hnc in Hlast.
    destruct (decide (id = mostRecentMutationId (component w))) as [->|Hne].
    + split.
      * intros o' [[= <-]|Ho']%elem_of_cons.
        -- rewrite Hrest by done. apply settle_current_state.
           ++ apply Hok.
           ++ apply (ok_pending _ Hok). eauto.
        -- destruct Hid. apply list_elem_of_fmap.
           by exists (mostRecentMutationId (component w), o').
      * intros Hnot. destruct Hnot. rewrite fmap_cons. left.
    + rewrite settle_stale in Hrest by done. split.
      * intros o' [[= ? ?]|Ho']%elem_of_cons; [done|]. by apply Hlast.
      * intros Hnot. apply Hrest. intros ?. apply Hnot.
        rewrite fmap_cons. by right.
Qed.

(** X14: from any moment in the mounted life of a constructed component,
    [n] calls are issued in a row and then settle, each with its own
    outcome, in any order. All of it runs, and the state at the end has
    the outcome of the call with the highest token: [loading] false, the
    data of its response and no error, or its error and no data;
    [notCalled] is false, unless the first of the calls found the state
    loading and hidden, in which case it stays true. Besides, at any such
    moment a call that settles changes the state if and only if its token
    is the counter's value. *)
Theorem latest_call_wins (p0 : MutationProps) (context0 : MutationContext)
    (this : Mutation) (hist : list Event) (w : World)
    (n : nat) (ss : list (Z * Outcome)) (o : Outcome) :
  constructor p0 context0 = Ok this →
  run (mount this) hist = Some w →
  (0 < n)%nat →
  ss.*1 ≡ₚ issued_tokens (mostRecentMutationId (component w)) n →
  (mostRecentMutationId (component w) + Z.of_nat n, o) ∈ ss →
  (∃ w1 w2,
     run w (replicate n Trigger) = Some w1
     ∧ run w1 (settle_event <$> ss) = Some w2
     ∧ state (component w2)
       = outcome_state
           (notCalled (state (component w))
            && truthy (loading (state (component w)))) o)
  ∧ (∀ mutationId o' w',
       host_step w (Settle mutationId o') = Some w' →
       state (component w') ≠ state (component w)
       ↔ mutationId = mostRecentMutationId (component w)).
Proof.
  intros Hthis Hhist Hn Hperm Ho.
  pose proof (reachable_ok _ _ _ _ _ Hthis Hhist) as Hok. split.
  - destruct (run_triggers n w) as (w1 & Hrun1 & Hc1 & Hs1 & Hnew & _).
    assert (world_ok w1) as Hok1 by by eapply run_ok.
    destruct (run_settlements ss w1 Hok1) as (w2 & Hrun2 & Hlast & _).
    { rewrite Hperm. apply issued_tokens_NoDup. }
    { intros id Hid. rewrite Hperm in Hid.
      apply issued_tokens_elem in Hid. by apply Hnew. }
    exists w1, w2. split_and!; [done..|].
    rewrite (Hlast o) by by rewrite Hc1. f_equal. rewrite Hs1.
    destruct n; [lia|]. rewrite onStartMutation_spec.
    destruct (truthy _); cbn; by rewrite ?andb_true_r, ?andb_false_r.
  - intros id o' w' [Hin ->]%host_step_Settle_inv. cbn [component]. split.
    + intros Hchange. destruct (decide (id = mostRecentMutationId (component w)));
        [done|]. by rewrite settle_stale in Hchange.
    + intros ->. pose proof (ok_pending _ Hok Hin) as Hl.
      rewrite settle_current_state; [|apply Hok|done].
      intros Heq. apply (f_equal loading) in Heq. rewrite Hl in Heq.
      by destruct o'.
Qed.

(** ** After a change of client *)

Lemma componentWillReceiveProps_Ok (this this' : Mutation)
    (nextProps : MutationProps) (nextContext : MutationContext) :
  componentWillReceiveProps this nextProps nextContext = Ok this' →
  this' = this
  ∨ this' = setState true (with_client this (context_client nextContext))
              initialState.
Proof.
  unfold componentWillReceiveProps. destruct (_ && _).
  - intros [= <-]. by left.
  - destruct (verifyDocumentIsMutation _); [|done]. cbn.
    case_bool_decide; intros [= <-]; eauto.
Qed.

Lemma since_change_step (c0 : Z) (w w' : World) (ev : Event) :
  since_change c0 w → host_step w ev = Some w' → since_change c0 w'.
Proof.
  intros [Hle Hcase]. destruct ev as [|id o|nextProps nextContext|id o thrown].
  - rewrite host_step_Trigger, runMutation_issue_component.
    intros [= <-]. unfold since_change.
    cbn [component mostRecentMutationId with_mostRecentMutationId].
    split; [lia|]. right. lia.
  - intros [_ ->]%host_step_Settle_inv. unfold since_change.
    cbn [component].
    by destruct (settle_keeps true (component w) o id) as (_ & _ & -> & ->).
  - intros (this & Hthis & ->)%host_step_Reconfigure_inv.
    unfold since_change. cbn [component].
    apply componentWillReceiveProps_Ok in Hthis as [->| ->]; [done|].
    split; [done|]. by left.
  - intros (w0 & Hw0 & Hc & _)%host_step_SettleThrowing_inv.
    apply host_step_Settle_inv in Hw0 as [_ ->]. unfold since_change.
    rewrite Hc. cbn [component].
    by destruct (settle_keeps true (component w) o id) as (_ & _ & -> & ->).
Qed.

Lemma since_change_run (c0 : Z) (evs : list Event) (w w' : World) :
  since_change c0 w → run w evs = Some w' → since_change c0 w'.
Proof.
  revert w. induction evs as [|ev evs IH]; intros w Hw; cbn.
  - by intros [= <-].
  - destruct (host_step w ev) as [w1|] eqn:Hstep; [|done].
    apply IH. by eapply since_change_step.
Qed.

(** C4, as the code has it: once a reconfiguration has changed the client,
    a call issued before the change that settles, whatever has happened in
    between, does not change what [render] passes on. (The state itself
    may be written; it stays hidden.) *)
Theorem old_call_stays_hidden (w w1 w2 w3 : World)
    (nextProps : MutationProps) (nextContext : MutationContext)
    (later : list Event) (mutationId : Z) (o : Outcome) :
  client (component w) ≠ context_client nextContext →
  host_step w (Reconfigure nextProps nextContext) = Some w1 →
  run w1 later = Some w2 →
  mutationId ≤ mostRecentMutationId (component w) →
  host_step w2 (Settle mutationId o) = Some w3 →
  render (component w3) = render (component w2).
Proof.
  intros Hne Hstep Hlater Hold [_ ->]%host_step_Settle_inv.
  assert (since_change (mostRecentMutationId (component w)) w1) as Hw1.
  { apply host_step_Reconfigure_inv in Hstep as (this & Hthis & ->).
    rewrite componentWillReceiveProps_client_change in Hthis by done.
    destruct (verifyDocumentIsMutation _); [|done]. cbn in Hthis.
    injection Hthis as <-. split; [done|]. by left. }
  destruct (since_change_run _ _ _ _ Hw1 Hlater) as [Hle [Hhidden|Hlt]].
  - cbn [component]. unfold render, render_result.
    destruct (settle_keeps true (component w2) o mutationId) as (-> & _ & _ & ->).
    by rewrite Hhidden.
  - cbn [component]. rewrite settle_stale; [done|lia].
Qed.

(** ** What the renderer sees around a trigger *)

Lemma render_before_first_trigger (p : MutationProps)
    (context : MutationContext) (this : Mutation) (evs : list Event)
    (w : World) :
  constructor p context = Ok this →
  run (mount this) evs = Some w →
  Trigger ∉ evs →
  render_result (component w) = None.
Proof.
  intros (_ & _ & ->)%constructor_Ok.
  set (w0 := mount _).
  assert (notCalled (state (component w0)) = true ∧ inflight w0 = ∅)
    as Hw0 by done.
  clearbody w0. revert w0 Hw0.
  induction evs as [|ev evs IH]; intros w0 [Hhidden Hnone]; cbn.
  - intros [= <-] _. unfold render_result. by rewrite Hhidden.
  - intros Hrun Hno. apply not_elem_of_cons in Hno as [Hev Hno].
    destruct (host_step w0 ev) as [w1|] eqn:Hstep; [|done].
    apply (IH w1); [|done..].
    destruct ev as [|id o|nextProps nextContext|id o thrown]; [done| | |].
    + apply host_step_Settle_inv in Hstep as [[? Hin] _].
      by rewrite Hnone, lookup_empty in Hin.
    + apply host_step_Reconfigure_inv in Hstep as (this & Hthis & ->).
      cbn [component inflight].
      by apply componentWillReceiveProps_Ok in Hthis as [->| ->].
    + apply host_step_SettleThrowing_inv in Hstep as (? & Hsettle & _).
      apply host_step_Settle_inv in Hsettle as [[? Hin] _].
      by rewrite Hnone, lookup_empty in Hin.
Qed.

Lemma trigger_shows_loading (w : World) :
  world_ok w →
  notCalled (state (component w)) = false
  ∨ loading (state (component w)) ≠ Some true →
  ∃ w', host_step w Trigger = Some w'
    ∧ render_result (component w')
      = Some {| result_loading := Some true; result_data := None;
                result_error := None |}.
Proof.
  intros Hok Hvisible. rewrite host_step_Trigger.
  rewrite runMutation_issue_component. eexists. split; [done|].
  cbn [component]. unfold render_result. cbn [state with_mostRecentMutationId].
  rewrite onStartMutation_spec. destruct (truthy _) eqn:Hl; [|done].
  apply truthy_loading in Hl.
  destruct (well_shaped_loading _ (ok_shape _ Hok) Hl) as [-> ->].
  rewrite Hl. by destruct Hvisible as [->|?].
Qed.

(** * Further properties of the component *)

(** ** Counting events *)

Fixpoint count_triggers (evs : list Event) : nat :=
  match evs with
  | [] => 0
  | Trigger :: evs => S (count_triggers evs)
  | _ :: evs => count_triggers evs
  end.

(** The settlements, whatever their callback does. *)
Fixpoint count_settlements (evs : list Event) : nat :=
  match evs with
  | [] => 0
  | Settle _ _ :: evs | SettleThrowing _ _ _ :: evs =>
      S (count_settlements evs)
  | _ :: evs => count_settlements evs
  end.

(** The settlements with a response whose [onCompleted] throws. *)
Fixpoint count_thrown (evs : list Event) : nat :=
  match evs with
  | [] => 0
  | SettleThrowing _ (Resolved _) _ :: evs => S (count_thrown evs)
  | _ :: evs => count_thrown evs
  end.

Definition is_settle (ev : Event) : bool :=
  match ev with
  | Settle _ _ | SettleThrowing _ _ _ => true
  | _ => false
  end.

(** The event is not a reconfiguration under another client than [c]. *)
Definition keeps_client (c : option Client) (ev : Event) : bool :=
  match ev with
  | Reconfigure _ nextContext =>
      bool_decide (context_client nextContext = c)
  | _ => true
  end.

(** The options [mutate] reads from props [p]. *)
Definition options_of (p : MutationProps) : MutationOptions :=
  {| opt_mutation := mutation p; opt_variables := variables p;
     opt_optimisticResponse := optimisticResponse p;
     opt_refetchQueries := refetchQueries p; opt_update := update p |}.

(** ** What each event keeps *)

Lemma componentWillReceiveProps_keeps (this this' : Mutation)
    (nextProps : MutationProps) (nextContext : MutationContext) :
  componentWillReceiveProps this nextProps nextContext = Ok this' →
  client this' = context_client nextContext
  ∧ mostRecentMutationId this' = mostRecentMutationId this
  ∧ props this' = props this
  ∧ (client this = context_client nextContext → this' = this).
Proof.
  unfold componentWillReceiveProps.
  destruct (decide (client this = context_client nextContext)) as [Heq|Hne].
  - rewrite (bool_decide_eq_true_2 _ Heq).
    rewrite (bool_decide_eq_false_2 (client this ≠ _)) by (intros ?; done).
    destruct (shallowEqual _ _); cbn.
    + by intros [= <-].
    + destruct (verifyDocumentIsMutation _); cbn; [|done]. by intros [= <-].
  - rewrite (bool_decide_eq_false_2 _ Hne), andb_false_r.
    rewrite (bool_decide_eq_true_2 _ Hne).
    destruct (verifyDocumentIsMutation _); cbn; [|done]. by intros [= <-].
Qed.

Lemma host_step_counter (w w' : World) (ev : Event) :
  host_step w ev = Some w' →
  mostRecentMutationId (component w')
  = mostRecentMutationId (component w)
    + match ev with Trigger => 1 | _ => 0 end.
Proof.
  destruct ev as [|id o|nextProps nextContext|id o thrown].
  - rewrite host_step_Trigger, runMutation_issue_component. by intros [= <-].
  - intros [_ ->]%host_step_Settle_inv. cbn [component].
    destruct (settle_keeps true (component w) o id) as (_ & _ & -> & _). lia.
  - intros (this & Hthis & ->)%host_step_Reconfigure_inv.
    apply componentWillReceiveProps_keeps in Hthis as (_ & Hc & _).
    cbn [component with_props mostRecentMutationId]. lia.
  - intros (w0 & Hw0 & -> & _)%host_step_SettleThrowing_inv.
    apply host_step_Settle_inv in Hw0 as [_ ->]. cbn [component].
    destruct (settle_keeps true (component w) o id) as (_ & _ & -> & _). lia.
Qed.

Lemma run_counter (evs : list Event) (w w' : World) :
  run w evs = Some w' →
  mostRecentMutationId (component w')
  = mostRecentMutationId (component w) + Z.of_nat (count_triggers evs).
Proof.
  revert w. induction evs as [|ev evs IH]; intros w; cbn [run].
  - intros [= <-]. cbn. lia.
  - destruct (host_step w ev) as [w1|] eqn:Hstep; [|done].
    intros Hrun%IH. apply host_step_counter in Hstep.
    destruct ev; cbn [count_triggers]; lia.
Qed.

(** X4: the counter of a constructed component is the number of triggers
    so far; settlements and reconfigurations, changes of client
    included, leave it alone. *)
Theorem counter_counts_triggers (p : MutationProps)
    (context : MutationContext) (this : Mutation) (evs : list Event)
    (w : World) :
  constructor p context = Ok this →
  run (mount this) evs = Some w →
  mostRecentMutationId (component w) = Z.of_nat (count_triggers evs).
Proof.
  intros (_ & _ & ->)%constructor_Ok Hrun%run_counter. by rewrite Hrun.
Qed.

(** X5: a trigger while calls are in flight gives the new call a token
    above the token of each of them, and leaves each of them in flight as
    it was. *)
Theorem new_token_exceeds_inflight (p : MutationProps)
    (context : MutationContext) (this : Mutation) (evs : list Event)
    (w : World) (mutationId : Z) (call : MutationCall) :
  constructor p context = Ok this →
  run (mount this) evs = Some w →
  inflight w !! mutationId = Some call →
  ∃ w' call',
    host_step w Trigger = Some w'
    ∧ inflight w' !! mostRecentMutationId (component w') = Some call'
    ∧ call_mutationId call' = mostRecentMutationId (component w')
    ∧ mutationId < mostRecentMutationId (component w')
    ∧ inflight w' !! mutationId = Some call.
Proof.
  intros Hthis Hrun Hin.
  pose proof (ok_tokens _ (reachable_ok _ _ _ _ _ Hthis Hrun) _ _ Hin) as Hle.
  rewrite host_step_Trigger. eexists _, _. split; [done|].
  cbn [component inflight]. rewrite runMutation_issue_component.
  cbn [mostRecentMutationId with_mostRecentMutationId].
  split_and!.
  - apply lookup_insert_eq.
  - apply runMutation_issue_token.
  - lia.
  - rewrite lookup_insert_ne by lia. done.
Qed.

(** X6: a call that was in flight when a trigger happened never changes
    the state when it settles, whatever happens between the trigger and
    its settlement. *)
Theorem superseded_call_never_writes (p : MutationProps)
    (context : MutationContext) (this : Mutation) (hist later : list Event)
    (w w1 w2 w3 : World) (mutationId : Z) (call : MutationCall)
    (o : Outcome) :
  constructor p context = Ok this →
  run (mount this) hist = Some w →
  inflight w !! mutationId = Some call →
  host_step w Trigger = Some w1 →
  run w1 later = Some w2 →
  host_step w2 (Settle mutationId o) = Some w3 →
  state (component w3) = state (component w2).
Proof.
  intros Hthis Hrun Hin Hstep Hlater [_ ->]%host_step_Settle_inv.
  pose proof (ok_tokens _ (reachable_ok _ _ _ _ _ Hthis Hrun) _ _ Hin) as Hle.
  apply host_step_counter in Hstep. apply run_counter in Hlater.
  cbn [component]. rewrite settle_stale; [done|lia].
Qed.

Lemma host_step_settle_kind (w w' : World) (ev : Event) :
  is_settle ev = true → host_step w ev = Some w' →
  ∃ id o,
    is_Some (inflight w !! id)
    ∧ component w' = (settled true (component w) o id).1
    ∧ inflight w' = delete id (inflight w).
Proof.
  destruct ev as [|id o|? ?|id o thrown]; [done| |done|]; intros _.
  - intros [Hin ->]%host_step_Settle_inv. eauto 10.
  - intros (Hin & called & _ & ->)%settle_in_flight_inv. eauto 10.
Qed.

Lemma run_stale_settlements (evs : list Event) (w w' : World) :
  forallb is_settle evs = true →
  inflight w !! mostRecentMutationId (component w) = None →
  run w evs = Some w' →
  component w' = component w.
Proof.
  revert w. induction evs as [|ev evs IH]; intros w Hall Hnone; cbn [run].
  - by intros [= <-].
  - cbn [forallb] in Hall. apply andb_prop in Hall as [Hev Hall].
    destruct (host_step w ev) as [w1|] eqn:Hstep; [|done].
    apply (host_step_settle_kind _ _ _ Hev) in Hstep
      as (id & o & [call Hin] & Hc & Hi).
    assert (id ≠ mostRecentMutationId (component w)) as Hne by congruence.
    rewrite settle_stale in Hc by done.
    intros Hrun. apply IH in Hrun; [congruence|done|].
    rewrite Hc, Hi. by rewrite lookup_delete_ne.
Qed.

(** X7: once the state of a constructed component is not loading, no
    settlement changes it: calls that are still in flight settle, in any
    number and order, and the state and what [render] passes stay as they
    are. *)
Theorem settled_state_is_stable (p : MutationProps)
    (context : MutationContext) (this : Mutation) (hist evs : list Event)
    (w w' : World) :
  constructor p context = Ok this →
  run (mount this) hist = Some w →
  loading (state (component w)) ≠ Some true →
  forallb is_settle evs = true →
  run w evs = Some w' →
  state (component w') = state (component w)
  ∧ render (component w') = render (component w).
Proof.
  intros Hthis Hrun Hl Hall Hevs.
  pose proof (reachable_ok _ _ _ _ _ Hthis Hrun) as Hok.
  assert (inflight w !! mostRecentMutationId (component w) = None) as Hnone.
  { destruct (inflight w !! _) eqn:Hin; [|done].
    destruct Hl. apply (ok_pending _ Hok). by rewrite Hin. }
  by rewrite (run_stale_settlements _ _ _ Hall Hnone Hevs).
Qed.

(** X8: a reconfiguration under the same client whose document is a
    mutation replaces the props and nothing else: the state, the counter,
    the calls in flight and the callbacks invoked stay as they are,
    whatever else changed in the props. *)
Theorem props_change_keeps_state (w : World) (nextProps : MutationProps)
    (nextContext : MutationContext) :
  client (component w) = context_client nextContext →
  type (parser (mutation nextProps)) = DocumentType.Mutation →
  host_step w (Reconfigure nextProps nextContext)
  = Some {| component := with_props (component w) nextProps;
            inflight := inflight w; callbacks := callbacks w |}.
Proof.
  intros Heq Hk. unfold host_step, step, componentWillReceiveProps.
  rewrite (bool_decide_eq_true_2 _ Heq).
  rewrite (bool_decide_eq_false_2 (client _ ≠ _)) by (intros ?; done).
  rewrite verifyDocumentIsMutation_mutation by done.
  by destruct (shallowEqual _ _).
Qed.

(** X9: the callback a settling call invokes is the one of the props at
    the time it settles, not of the props under which it was issued: after
    a reconfiguration, a call already in flight reports to the new
    [onCompleted] or [onError], and to nobody when the new props have
    none. *)
Theorem callback_taken_from_current_props (w w1 : World)
    (mutationId : Z) (call : MutationCall)
    (nextProps : MutationProps) (nextContext : MutationContext)
    (response : Response) (e : ApolloError) :
  inflight w !! mutationId = Some call →
  host_step w (Reconfigure nextProps nextContext) = Some w1 →
  (∃ w2, host_step w1 (Settle mutationId (Resolved response)) = Some w2
     ∧ callbacks w2
       = callbacks w
         ++ match onCompleted nextProps with
            | Some f => [CompletedCall f (response_data response)]
            | None => []
            end)
  ∧ (∃ w2, host_step w1 (Settle mutationId (Rejected e)) = Some w2
       ∧ callbacks w2
         = callbacks w
           ++ match onError nextProps with
              | Some f => [ErrorCall f e]
              | None => []
              end).
Proof.
  intros Hin (this & _ & ->)%host_step_Reconfigure_inv.
  split; (eexists; split;
          [by eapply host_step_Settle|];
          cbn [callbacks]; by rewrite settle_callbacks).
Qed.

(** The outcome an event settles a call with, and what [onCompleted]
    throws at it. *)
Definition outcome_of (ev : Event) : option Outcome :=
  match ev with
  | Settle _ o | SettleThrowing _ o _ => Some o
  | _ => None
  end.

Definition thrown_of (ev : Event) : option ApolloError :=
  match ev with
  | SettleThrowing _ (Resolved _) thrown => Some thrown
  | _ => None
  end.

Lemma runMutation_settle_thrown_called (thrown : ApolloError)
    (this this' : Mutation) (o : Outcome) (mutationId : Z)
    (called : list CallbackCall) :
  runMutation_settle true (Some thrown) this o mutationId
  = Some (this', called) →
  called
  = match o with
    | Resolved response =>
        match onCompleted (props this) with
        | Some f =>
            CompletedCall f (response_data response)
            :: match onError (props this) with
               | Some g => [ErrorCall g thrown]
               | None => []
               end
        | None => []
        end
    | Rejected e =>
        match onError (props this) with
        | Some f => [ErrorCall f e]
        | None => []
        end
    end.
Proof.
  destruct (decide (mutationId = mostRecentMutationId this)) as [->|Hne].
  - settle_cases o; rewrite Z.eqb_refl; cbn;
      repeat (destruct (onCompleted _) || destruct (onError _)); cbn;
      try done; by intros [= _ <-].
  - rewrite runMutation_settle_thrown_stale by done. by intros [= _ <-].
Qed.

Lemma host_step_callbacks (w w' : World) (ev : Event) :
  host_step w ev = Some w' →
  ∃ called,
    callbacks w' = callbacks w ++ called
    ∧ (length called ≤ count_settlements [ev] + count_thrown [ev])%nat
    ∧ (∀ f d, CompletedCall f d ∈ called →
         ∃ response,
           outcome_of ev = Some (Resolved response)
           ∧ response_data response = d)
    ∧ (∀ f e, ErrorCall f e ∈ called →
         outcome_of ev = Some (Rejected e) ∨ thrown_of ev = Some e).
Proof.
  destruct ev as [|id o|nextProps nextContext|id o thrown].
  - rewrite host_step_Trigger. intros [= <-]. exists []. cbn [callbacks].
    rewrite app_nil_r. split_and!; [done|done|..]; by intros ?? ?%elem_of_nil.
  - intros [_ ->]%host_step_Settle_inv. eexists. split; [done|].
    rewrite settle_callbacks. destruct o as [response|e].
    + destruct (onCompleted _); cbn; split_and!; try lia.
      * intros ?? [= ? ?]%list_elem_of_singleton. subst. eauto.
      * by intros ?? ?%list_elem_of_singleton.
      * by intros ?? ?%elem_of_nil.
      * by intros ?? ?%elem_of_nil.
    + destruct (onError _); cbn; split_and!; try lia.
      * by intros ?? ?%list_elem_of_singleton.
      * intros ?? [= ? ?]%list_elem_of_singleton. subst. eauto.
      * by intros ?? ?%elem_of_nil.
      * by intros ?? ?%elem_of_nil.
  - intros (this & _ & ->)%host_step_Reconfigure_inv. exists [].
    cbn [callbacks]. rewrite app_nil_r.
    split_and!; [done|done|..]; by intros ?? ?%elem_of_nil.
  - intros (_ & called & Hsettle & ->)%settle_in_flight_inv.
    apply runMutation_settle_thrown_called in Hsettle as ->.
    eexists. split; [done|]. destruct o as [response|e].
    + destruct (onCompleted (props (component w))),
        (onError (props (component w))); cbn; split_and!; try lia;
        intros ?? Hin; repeat (apply elem_of_cons in Hin as [Hin|Hin]);
        try (by apply elem_of_nil in Hin); simplify_eq; eauto.
    + destruct (onError (props (component w))); cbn; split_and!; try lia;
        intros ?? Hin; repeat (apply elem_of_cons in Hin as [Hin|Hin]);
        try (by apply elem_of_nil in Hin); simplify_eq; eauto.
Qed.

(** X10: over any stretch of the mounted life of the component, the
    callbacks invoked are at most one for each settlement, and one more
    for each response whose [onCompleted] threw; every invocation of
    [onCompleted] has the data of a response one of the calls resolved
    with; and every invocation of [onError] has the failure one of the
    calls was rejected with, or else what an [onCompleted] threw. *)
Theorem callbacks_come_from_settlements (evs : list Event) (w w' : World) :
  run w evs = Some w' →
  ∃ called,
    callbacks w' = callbacks w ++ called
    ∧ (length called ≤ count_settlements evs + count_thrown evs)%nat
    ∧ (∀ f d, CompletedCall f d ∈ called →
         ∃ ev response,
           ev ∈ evs ∧ outcome_of ev = Some (Resolved response)
           ∧ response_data response = d)
    ∧ (∀ f e, ErrorCall f e ∈ called →
         ∃ ev, ev ∈ evs
               ∧ (outcome_of ev = Some (Rejected e)
                  ∨ thrown_of ev = Some e)).
Proof.
  revert w. induction evs as [|ev evs IH]; intros w; cbn [run].
  - intros [= <-]. exists []. rewrite app_nil_r.
    split_and!; [done|done|..]; by intros ?? ?%elem_of_nil.
  - destruct (host_step w ev) as [w1|] eqn:Hstep; [|done].
    intros (called' & -> & Hlen' & Hc' & He')%IH.
    apply host_step_callbacks in Hstep as (called & -> & Hlen & Hc & He).
    exists (called ++ called'). split_and!.
    + by rewrite app_assoc.
    + rewrite length_app.
      assert (count_settlements (ev :: evs)
              = (count_settlements [ev] + count_settlements evs)%nat) as ->
        by by destruct ev.
      assert (count_thrown (ev :: evs)
              = (count_thrown [ev] + count_thrown evs)%nat) as ->
        by by destruct ev as [| | |? [] ?].
      lia.
    + intros f d [Hin|Hin]%elem_of_app.
      * destruct (Hc _ _ Hin) as (response & ? & <-).
        exists ev, response. split_and!; [left|done..].
      * destruct (Hc' _ _ Hin) as (ev' & response & ? & ? & <-).
        exists ev', response. split_and!; [by right|done..].
    + intros f e [Hin|Hin]%elem_of_app.
      * exists ev. split; [left|]. by apply (He f).
      * destruct (He' _ _ Hin) as (ev' & ? & ?). exists ev'.
        split; [by right|done].
Qed.

(** X11: after a reconfiguration, the next trigger sends to the client of
    the new context the options of the new props, under the next token;
    the calls already in flight stay with the client and the options they
    were sent with. *)
Theorem reconfigured_trigger_uses_new_client (p : MutationProps)
    (context : MutationContext) (this : Mutation) (evs : list Event)
    (w w1 : World) (nextProps : MutationProps)
    (nextContext : MutationContext) :
  constructor p context = Ok this →
  run (mount this) evs = Some w →
  host_step w (Reconfigure nextProps nextContext) = Some w1 →
  ∃ w2,
    host_step w1 Trigger = Some w2
    ∧ inflight w2 !! (mostRecentMutationId (component w) + 1)
      = Some {| call_client := context_client nextContext;
                call_options := options_of nextProps;
                call_mutationId := mostRecentMutationId (component w) + 1 |}
    ∧ ∀ id call, inflight w !! id = Some call →
                 inflight w2 !! id = Some call.
Proof.
  intros Hthis Hrun (this' & Hthis' & ->)%host_step_Reconfigure_inv.
  pose proof (reachable_ok _ _ _ _ _ Hthis Hrun) as Hok.
  apply componentWillReceiveProps_keeps in Hthis' as (Hclient & Hc & _).
  rewrite host_step_Trigger. eexists. split; [done|].
  cbn [component inflight with_props mostRecentMutationId]. rewrite Hc.
  split.
  - rewrite lookup_insert_eq. f_equal.
    unfold runMutation_issue, mutate. cbn.
    destruct (onStartMutation_keeps (with_props this' nextProps))
      as (-> & -> & ->).
    cbn. by rewrite Hclient, Hc.
  - intros id call Hin. pose proof (ok_tokens _ Hok _ _ Hin).
    rewrite lookup_insert_ne by lia. done.
Qed.

(** ** What the renderer is passed *)

Lemma run_untriggered (evs : list Event) (w w' : World) :
  count_triggers evs = 0%nat →
  state (component w) = as_state initialState →
  inflight w = ∅ → callbacks w = [] →
  run w evs = Some w' →
  state (component w') = as_state initialState
  ∧ inflight w' = ∅ ∧ callbacks w' = [].
Proof.
  revert w. induction evs as [|ev evs IH]; intros w Hcount Hs Hnone Hcb;
    cbn [run].
  - by intros [= <-].
  - destruct (host_step w ev) as [w1|] eqn:Hstep; [|done].
    destruct ev as [|id o|nextProps nextContext|id o thrown]; [done| | |].
    + apply host_step_Settle_inv in Hstep as [[? Hin] _].
      by rewrite Hnone, lookup_empty in Hin.
    + apply host_step_Reconfigure_inv in Hstep as (this & Hthis & ->).
      apply IH; [done| |done..]. cbn [component with_props state].
      apply componentWillReceiveProps_Ok in Hthis as [->| ->]; [done|].
      cbn. by rewrite Hs.
    + apply host_step_SettleThrowing_inv in Hstep as (? & Hsettle & _).
      apply host_step_Settle_inv in Hsettle as [[? Hin] _].
      by rewrite Hnone, lookup_empty in Hin.
Qed.

(** X1: as long as no trigger has happened, a constructed component is as
    it was constructed, whatever reconfigurations it went through, changes
    of client included: the state is the initial one, the counter is 0, no
    call is in flight, no callback was invoked, and [render] passes no
    result. *)
Theorem untriggered_component_is_initial (p : MutationProps)
    (context : MutationContext) (this : Mutation) (evs : list Event)
    (w : World) :
  constructor p context = Ok this →
  run (mount this) evs = Some w →
  count_triggers evs = 0%nat →
  state (component w) = as_state initialState
  ∧ mostRecentMutationId (component w) = 0
  ∧ inflight w = ∅
  ∧ callbacks w = []
  ∧ render_result (component w) = None.
Proof.
  intros (_ & _ & ->)%constructor_Ok Hrun Hcount.
  pose proof (run_counter _ _ _ Hrun) as Hc. rewrite Hcount in Hc.
  assert (state (component w) = as_state initialState
          ∧ inflight w = ∅ ∧ callbacks w = []) as (Hs & Hnone & Hcb).
  { eapply run_untriggered; [exact Hcount| | | |exact Hrun]; done. }
  split_and!; [done|by rewrite Hc|done|done|].
  unfold render_result. by rewrite Hs.
Qed.

(** X2: at any moment in the life of a constructed component at which the
    state is not both hidden and loading, a trigger makes [render] pass a
    result that is loading, with neither data nor error: an earlier
    result, success or failure, is cleared at once. *)
Theorem trigger_renders_loading (p : MutationProps)
    (context : MutationContext) (this : Mutation) (evs : list Event)
    (w : World) :
  constructor p context = Ok this →
  run (mount this) evs = Some w →
  notCalled (state (component w)) = false
  ∨ loading (state (component w)) ≠ Some true →
  ∃ w', host_step w Trigger = Some w'
    ∧ render_result (component w')
      = Some {| result_loading := Some true; result_data := None;
                result_error := None |}.
Proof.
  intros Hthis Hrun Hvisible. apply trigger_shows_loading; [|done].
  by eapply reachable_ok.
Qed.

(** Under one client: the stored client is [c], and a loading state is
    not hidden. *)
Definition under_client (c : option Client) (w : World) : Prop :=
  client (component w) = c
  ∧ (loading (state (component w)) = Some true →
     notCalled (state (component w)) = false).

Lemma under_client_step (c : option Client) (w w' : World) (ev : Event) :
  under_client c w → keeps_client c ev = true →
  host_step w ev = Some w' →
  under_client c w'
  ∧ (notCalled (state (component w)) = false ∨ ev = Trigger →
     notCalled (state (component w')) = false).
Proof.
  intros [Hc Hl] Hkeep. destruct ev as [|id o|nextProps nextContext|id o thrown].
  - rewrite host_step_Trigger, runMutation_issue_component.
    intros [= <-]. unfold under_client.
    cbn [component client state with_mostRecentMutationId].
    destruct (onStartMutation_keeps (component w)) as (_ & -> & _).
    rewrite onStartMutation_spec.
    destruct (truthy _) eqn:Hload; [|done].
    apply truthy_loading in Hload. split_and!; [done|done|]. auto.
  - intros [_ ->]%host_step_Settle_inv. unfold under_client.
    cbn [component].
    destruct (settle_keeps true (component w) o id) as (_ & -> & _ & ->).
    split_and!; [done| |by intros [?|?]].
    destruct (decide (id = mostRecentMutationId (component w))) as [->|Hne].
    + rewrite settle_current. by destruct o.
    + by rewrite settle_stale.
  - intros (this & Hthis & ->)%host_step_Reconfigure_inv.
    cbn [keeps_client] in Hkeep. apply bool_decide_eq_true_1 in Hkeep.
    apply componentWillReceiveProps_keeps in Hthis as (_ & _ & _ & ->);
      [|congruence].
    unfold under_client. cbn [component with_props client state].
    split_and!; [done|done|by intros [?|?]].
  - intros (_ & called & _ & ->)%settle_in_flight_inv. unfold under_client.
    cbn [component].
    destruct (settle_keeps true (component w) o id) as (_ & -> & _ & ->).
    split_and!; [done| |by intros [?|?]].
    destruct (decide (id = mostRecentMutationId (component w))) as [->|Hne].
    + rewrite settle_current. by destruct o.
    + by rewrite settle_stale.
Qed.

Lemma under_client_run (c : option Client) (evs : list Event)
    (w w' : World) :
  under_client c w → forallb (keeps_client c) evs = true →
  run w evs = Some w' →
  under_client c w'
  ∧ (notCalled (state (component w)) = false ∨ count_triggers evs ≠ 0%nat →
     notCalled (state (component w')) = false).
Proof.
  revert w. induction evs as [|ev evs IH]; intros w Hw Hall; cbn [run].
  - intros [= <-]. split; [done|]. by intros [?|?].
  - cbn [forallb] in Hall. apply andb_prop in Hall as [Hev Hall].
    destruct (host_step w ev) as [w1|] eqn:Hstep; [|done].
    destruct (under_client_step _ _ _ _ Hw Hev Hstep) as [Hw1 Hvis1].
    intros Hrun. destruct (IH _ Hw1 Hall Hrun) as [Hw' Hvis].
    split; [done|]. intros [Hvis0|Hcount]; apply Hvis.
    + left. auto.
    + destruct ev; cbn [count_triggers] in Hcount; auto.
Qed.

(** X3: as long as no reconfiguration changes the client, [render] passes
    a result if and only if a trigger has happened, and every further
    trigger makes it pass a loading result with neither data nor error. *)
Theorem same_client_result_visible (p : MutationProps)
    (context : MutationContext) (this : Mutation) (evs : list Event)
    (w : World) :
  constructor p context = Ok this →
  forallb (keeps_client (context_client context)) evs = true →
  run (mount this) evs = Some w →
  (render_result (component w) = None ↔ count_triggers evs = 0%nat)
  ∧ ∃ w', host_step w Trigger = Some w'
      ∧ render_result (component w')
        = Some {| result_loading := Some true; result_data := None;
                  result_error := None |}.
Proof.
  intros Hthis Hall Hrun.
  pose proof (reachable_ok _ _ _ _ _ Hthis Hrun) as Hok.
  apply constructor_Ok in Hthis as (_ & _ & ->).
  assert (under_client (context_client context) w
          ∧ (notCalled (state (component (mount
               {| props := p; client := context_client context;
                  mostRecentMutationId := 0;
                  state := as_state initialState |}))) = false
             ∨ count_triggers evs ≠ 0%nat →
             notCalled (state (component w)) = false)) as [[_ Hl] Hvis].
  { eapply under_client_run; [|exact Hall|exact Hrun]. by split. }
  split.
  - split.
    + intros Hnone. destruct (count_triggers evs) eqn:Hcount; [done|].
      unfold render_result in Hnone. rewrite Hvis in Hnone; [done|].
      right. lia.
    + intros Hcount.
      assert (state (component w) = as_state initialState) as Hs.
      { eapply run_untriggered; [exact Hcount| | | |exact Hrun]; done. }
      unfold render_result. by rewrite Hs.
  - apply trigger_shows_loading; [done|].
    destruct (loading (state (component w))) as [[]|]; [left; auto|right..];
      done.
Qed.

(** ** What is sent and what comes back *)

(** Every call in flight carries a mutation document and, as its
    [mutationId], the positive token it is known by. *)
Definition calls_ok (w : World) : Prop :=
  0 ≤ mostRecentMutationId (component w)
  ∧ ∀ id call, inflight w !! id = Some call →
      type (parser (opt_mutation (call_options call)))
      = DocumentType.Mutation
      ∧ call_mutationId call = id
      ∧ 0 < id.

Lemma calls_ok_step (w w' : World) (ev : Event) :
  world_ok w → calls_ok w → host_step w ev = Some w' → calls_ok w'.
Proof.
  intros Hok [Hpos Hcalls] Hstep.
  pose proof (host_step_counter _ _ _ Hstep) as Hc. split.
  { rewrite Hc. destruct ev; lia. }
  destruct ev as [|id o|nextProps nextContext|id o thrown].
  - rewrite host_step_Trigger in Hstep. injection Hstep as <-.
    intros id call. cbn [inflight]. rewrite lookup_insert. case_decide.
    + intros [= <-]. subst id. split_and!; [|apply runMutation_issue_token|lia].
      unfold runMutation_issue, mutate. cbn.
      destruct (onStartMutation_keeps (component w)) as (-> & _).
      apply Hok.
    + apply Hcalls.
  - apply host_step_Settle_inv in Hstep as [_ ->].
    intros id' call. cbn [inflight]. rewrite lookup_delete.
    case_decide; [done|]. apply Hcalls.
  - apply host_step_Reconfigure_inv in Hstep as (this & _ & ->).
    apply Hcalls.
  - apply settle_in_flight_inv in Hstep as (_ & called & _ & ->).
    intros id' call. cbn [inflight]. rewrite lookup_delete.
    case_decide; [done|]. apply Hcalls.
Qed.

Lemma calls_ok_run (evs : list Event) (w w' : World) :
  world_ok w → calls_ok w → run w evs = Some w' → calls_ok w'.
Proof.
  revert w. induction evs as [|ev evs IH]; intros w Hok Hcalls; cbn [run].
  - by intros [= <-].
  - destruct (host_step w ev) as [w1|] eqn:Hstep; [|done].
    apply IH; [by eapply host_step_ok|by eapply calls_ok_step].
Qed.

(** X12: every call a constructed component has in flight was sent with a
    document that is a mutation, also after reconfigurations that replaced
    the document, and holds as its [mutationId] a token between 1 and the
    counter. *)
Theorem only_mutations_are_sent (p : MutationProps)
    (context : MutationContext) (this : Mutation) (evs : list Event)
    (w : World) (mutationId : Z) (call : MutationCall) :
  constructor p context = Ok this →
  run (mount this) evs = Some w →
  inflight w !! mutationId = Some call →
  type (parser (opt_mutation (call_options call))) = DocumentType.Mutation
  ∧ call_mutationId call = mutationId
  ∧ 0 < mutationId ≤ mostRecentMutationId (component w).
Proof.
  intros Hthis Hrun Hin.
  pose proof (reachable_ok _ _ _ _ _ Hthis Hrun) as Hok.
  assert (calls_ok w) as [_ Hcalls].
  { eapply calls_ok_run; [by eapply mount_ok| |exact Hrun].
    apply constructor_Ok in Hthis as (_ & _ & ->). split; [done|].
    intros id call'. cbn. by rewrite lookup_empty. }
  destruct (Hcalls _ _ Hin) as (Hk & Hid & Hpos).
  pose proof (ok_tokens _ Hok _ _ Hin). split_and!; [done|done|lia|done].
Qed.

(** The result [render] passes for an outcome. *)
Definition outcome_result (o : Outcome) : MutationResult :=
  match o with
  | Resolved response =>
      {| result_loading := Some false;
         result_data := response_data response;
         result_error := None |}
  | Rejected e =>
      {| result_loading := Some false; result_data := None;
         result_error := Some e |}
  end.

(** X13: at any moment at which the state is not both hidden and loading,
    a trigger whose call then settles makes [render] pass the outcome of
    that call alone: its data with no error, or its error with no data;
    nothing of an earlier result is left. *)
Theorem latest_outcome_is_rendered (p : MutationProps)
    (context : MutationContext) (this : Mutation) (evs : list Event)
    (w : World) (o : Outcome) :
  constructor p context = Ok this →
  run (mount this) evs = Some w →
  notCalled (state (component w)) = false
  ∨ loading (state (component w)) ≠ Some true →
  ∃ w1 w2,
    host_step w Trigger = Some w1
    ∧ host_step w1 (Settle (mostRecentMutationId (component w1)) o) = Some w2
    ∧ render_result (component w2) = Some (outcome_result o).
Proof.
  intros Hthis Hrun Hvisible.
  pose proof (reachable_ok _ _ _ _ _ Hthis Hrun) as Hok.
  destruct (trigger_shows_loading w Hok Hvisible) as (w1 & Hstep & Hrender).
  pose proof (host_step_ok _ _ _ Hok Hstep) as Hok1.
  assert (is_Some (inflight w1 !! mostRecentMutationId (component w1)))
    as [call Hin].
  { rewrite host_step_Trigger, runMutation_issue_component in Hstep.
    injection Hstep as <-. cbn [component inflight mostRecentMutationId
                                 with_mostRecentMutationId].
    rewrite lookup_insert_eq. eauto. }
  eexists w1, _. split_and!; [done|by eapply host_step_Settle|].
  unfold render_result in *. cbn [component].
  rewrite settle_current_state;
    [|apply Hok1|apply (ok_pending _ Hok1); eauto].
  destruct (notCalled (state (component w1))); [done|]. by destruct o.
Qed.

(** ** After the unmount *)



End MutationComponent.

(** * A sample configuration

    Documents, clients and option objects are numbered, functions are
    named, data and failures are strings. Document 0 is a query, document
    1 a mutation, any other a subscription. *)

Definition sample_parser (d : nat) : IDocumentDefinition :=
  {| type := match d with
             | O => DocumentType.Query
             | 1%nat => DocumentType.Mutation
             | _ => DocumentType.Subscription
             end |}.

Definition sample_props : @MutationProps nat nat string :=
  {| mutation := 1%nat; variables := None; optimisticResponse := None;
     refetchQueries := None; update := None; children := "children";
     onCompleted := Some "onCompleted"; onError := Some "onError" |}.

Definition query_props : @MutationProps nat nat string :=
  {| mutation := 0%nat; variables := None; optimisticResponse := None;
     refetchQueries := None; update := None; children := "children";
     onCompleted := Some "onCompleted"; onError := Some "onError" |}.

Definition context_A : @MutationContext nat := {| context_client := Some 1%nat |}.
Definition context_B : @MutationContext nat := {| context_client := Some 2%nat |}.
Definition no_context : @MutationContext nat := {| context_client := None |}.

Definition sample_component : @Mutation string string nat nat nat string :=
  {| props := sample_props; client := Some 1%nat;
     mostRecentMutationId := 0; state := as_state initialState |}.

Definition response_X : @Response string := {| response_data := Some "X" |}.
Definition response_Y : @Response string := {| response_data := Some "Y" |}.

Definition sample_options : @MutationOptions nat nat string :=
  {| opt_mutation := 1%nat; opt_variables := None;
     opt_optimisticResponse := None; opt_refetchQueries := None;
     opt_update := None |}.

(** The first call, sent to client 1. *)
Definition call_1 : @MutationCall nat nat nat string :=
  {| call_client := Some 1%nat; call_options := sample_options;
     call_mutationId := 1 |}.

Definition loading_state (hidden : bool) : @MutationState string string :=
  {| notCalled := hidden; error := None; data := None;
     loading := Some true |}.

(** After the first trigger: loading, call 1 in flight. *)
Definition world_pending : @World string string nat nat nat string :=
  {| component :=
       {| props := sample_props; client := Some 1%nat;
          mostRecentMutationId := 1; state := loading_state false |};
     inflight := {[ 1 := call_1 ]};
     callbacks := [] |}.

(** Then the client changes from 1 to 2: hidden, still loading. *)
Definition world_changed : @World string string nat nat nat string :=
  {| component :=
       {| props := sample_props; client := Some 2%nat;
          mostRecentMutationId := 1; state := loading_state true |};
     inflight := {[ 1 := call_1 ]};
     callbacks := [] |}.

(** Then call 1 resolves with X. *)
Definition world_resolved : @World string string nat nat nat string :=
  {| component :=
       {| props := sample_props; client := Some 2%nat;
          mostRecentMutationId := 1;
          state := {| notCalled := true; error := None; data := Some "X";
                      loading := Some false |} |};
     inflight := ∅;
     callbacks := [CompletedCall "onCompleted" (Some "X")] |}.

(** * The theorems at the sample configuration *)

Lemma latest_call_wins_witness :
  (∃ w1 w2,
     run sample_parser world_pending (replicate 2 Trigger) = Some w1
     ∧ run sample_parser w1
         (settle_event <$> [(3, Resolved response_Y); (2, Rejected "E")])
       = Some w2
     ∧ state (component w2) = outcome_state false (Resolved response_Y))
  ∧ (∀ mutationId o' w',
       host_step sample_parser world_pending (Settle mutationId o')
       = Some w' →
       state (component w') ≠ state (component world_pending)
       ↔ mutationId = 1).
Proof.
  apply (latest_call_wins sample_parser sample_props context_A
           sample_component [Trigger] world_pending 2
           [(3, Resolved response_Y); (2, Rejected "E")]
           (Resolved response_Y)).
  - reflexivity.
  - reflexivity.
  - lia.
  - vm_compute. apply perm_swap.
  - vm_compute. apply list_elem_of_here.
Defined.

Lemma stale_settlement_keeps_state_witness :
  1 ≠ mostRecentMutationId (component world_pending) + 1
  ∧ state (onCompletedMutation true (Some "thrown")
             (with_mostRecentMutationId (component world_pending) 2)
             response_X 1).1
    = loading_state false
  ∧ state (onMutationError true (Some "thrown")
             (with_mostRecentMutationId (component world_pending) 2)
             "E" 1).1
    = loading_state false.
Proof.
  split; [vm_compute; lia|].
  apply (stale_settlement_keeps_state true (Some "thrown")
           (with_mostRecentMutationId (component world_pending) 2)
           response_X "E" 1).
  vm_compute. lia.
Defined.




Lemma old_call_stays_hidden_witness :
  render (component world_resolved) = ("children", None)
  ∧ render (component world_resolved) = render (component world_changed).
Proof.
  split; [reflexivity|].
  apply (old_call_stays_hidden sample_parser world_pending world_changed
           world_changed world_resolved sample_props context_B [] 1
           (Resolved response_X)).
  - vm_compute. discriminate.
  - vm_compute. reflexivity.
  - reflexivity.
  - vm_compute. discriminate.
  - vm_compute. reflexivity.
Defined.

(** C4 as stated fails: call 1 was issued under client 1; after the change
    to client 2 it resolves, its token is still the counter's value, and
    the state is written: [loading] goes from true to false and [data]
    from undefined to X. *)
Lemma old_call_writes_state :
  run sample_parser (mount sample_component)
    [Trigger; Reconfigure sample_props context_B]
  = Some world_changed
  ∧ host_step sample_parser world_changed (Settle 1 (Resolved response_X))
    = Some world_resolved
  ∧ state (component world_changed) = loading_state true
  ∧ state (component world_resolved)
    = {| notCalled := true; error := None; data := Some "X";
         loading := Some false |}
  ∧ state (component world_resolved) ≠ state (component world_changed).
Proof.
  split_and!; [vm_compute; reflexivity..|]. discriminate.
Qed.

Lemma non_mutation_document_rejected_witness :
  constructor (TData:=string) (ApolloError:=string) sample_parser
    query_props context_A
  = Throw "The <Mutation /> component requires a graphql mutation, but got a query."
  ∧ componentWillReceiveProps sample_parser (component world_pending)
      query_props context_A
    = Throw "The <Mutation /> component requires a graphql mutation, but got a query."
  ∧ host_step sample_parser world_pending (Reconfigure query_props context_A)
    = None.
Proof.
  pose proof (non_mutation_document_rejected sample_parser
                query_props context_A sample_props context_A
                sample_component [Trigger] world_pending
                query_props context_A) as H.
  cbv zeta in H.
  destruct H as (H1 & H2 & H3 & _).
  - by exists 1%nat.
  - vm_compute. discriminate.
  - reflexivity.
  - vm_compute. reflexivity.
  - vm_compute. discriminate.
  - split_and!; [exact H1|exact H2|exact H3].
Defined.

(** C5 as stated fails: constructed with a query and without a client in
    the context, the component throws the missing-client error, whose
    message does not name the kind. *)
Lemma query_without_client_not_named :
  type (sample_parser (mutation query_props)) = DocumentType.Query
  ∧ constructor (TData:=string) (ApolloError:=string) sample_parser
      query_props no_context
    = Throw context_message
  ∧ String.index 0 "query" context_message = None
  ∧ String.index 0 "subscription" context_message = None
  ∧ context_message ≠ document_message DocumentType.Query.
Proof. split_and!; [reflexivity..|discriminate]. Qed.

Lemma client_change_resets_witness :
  client (component world_pending) ≠ context_client context_B
  ∧ ∃ w', host_step sample_parser world_pending
            (Reconfigure sample_props context_B) = Some w'
      ∧ notCalled (state (component w')) = true
      ∧ render (component w') = ("children", None)
      ∧ client (component w') = Some 2%nat
      ∧ inflight w' = inflight world_pending.
Proof.
  split; [vm_compute; discriminate|].
  apply (client_change_resets sample_parser world_pending sample_props
           context_B).
  - vm_compute. discriminate.
  - reflexivity.
Defined.


Lemma constructor_without_client_witness :
  constructor (TData:=string) (ApolloError:=string) sample_parser
    sample_props no_context
  = Throw context_message
  ∧ verifyContext no_context = Throw context_message
  ∧ ∀ k, context_message ≠ document_message k.
Proof.
  apply (constructor_without_client sample_parser sample_props no_context).
  reflexivity.
Defined.

Lemma missing_client_reported_before_document_witness :
  constructor (TData:=string) (ApolloError:=string) sample_parser
    query_props no_context
  = Throw context_message
  ∧ verifyDocumentIsMutation sample_parser (mutation query_props)
    = Throw (document_message DocumentType.Query)
  ∧ document_message DocumentType.Query ≠ context_message.
Proof.
  apply (missing_client_reported_before_document sample_parser query_props
           no_context).
  - reflexivity.
  - vm_compute. discriminate.
Defined.

(** C7 fails on the code: a call is in flight when the client changes;
    [setState(initialState)] hides the state but leaves [loading] true, so
    the next trigger finds the state loading, writes nothing, and [render]
    still passes no result; it passes none either once that call has
    resolved. *)
Example trigger_after_client_change_stays_hidden :
  render_result ∘ component
    <$> run sample_parser (mount sample_component)
          [Trigger; Reconfigure sample_props context_B; Trigger]
  = Some None
  ∧ state ∘ component
      <$> run sample_parser (mount sample_component)
            [Trigger; Reconfigure sample_props context_B; Trigger]
    = Some (loading_state true)
  ∧ render_result ∘ component
      <$> run sample_parser (mount sample_component)
            [Trigger; Reconfigure sample_props context_B; Trigger;
             Settle 2 (Resolved response_Y)]
    = Some None.
Proof. split_and!; vm_compute; reflexivity. Qed.

(** * The further properties at the sample configuration *)

(** Other props for the same component: the same document, variables,
    no [onCompleted], another [onError]. *)
Definition other_props : @MutationProps nat nat string :=
  {| mutation := 1%nat; variables := Some 5%nat; optimisticResponse := None;
     refetchQueries := None; update := None; children := "children";
     onCompleted := None; onError := Some "report" |}.

(** The sample component after the events [evs]. *)
Definition world_after (evs : list (@Event string string nat nat nat string))
  : @World string string nat nat nat string :=
  default (mount sample_component)
    (run sample_parser (mount sample_component) evs).

Definition events_reconfigured : list (@Event string string nat nat nat string) :=
  [Reconfigure other_props context_B].

Definition events_failed : list (@Event string string nat nat nat string) :=
  [Trigger; Reconfigure other_props context_A; Settle 1 (Rejected "E")].

Definition events_hidden_result : list (@Event string string nat nat nat string) :=
  [Trigger; Reconfigure sample_props context_B;
   Settle 1 (Resolved response_X)].

Definition events_latest_settled : list (@Event string string nat nat nat string) :=
  [Trigger; Trigger; Settle 2 (Resolved response_Y)].

Lemma untriggered_component_is_initial_witness :
  state (component (world_after events_reconfigured))
  = as_state initialState
  ∧ mostRecentMutationId (component (world_after events_reconfigured)) = 0
  ∧ inflight (world_after events_reconfigured) = ∅
  ∧ callbacks (world_after events_reconfigured) = []
  ∧ render_result (component (world_after events_reconfigured)) = None.
Proof.
  apply (untriggered_component_is_initial sample_parser sample_props
           context_A sample_component events_reconfigured);
    reflexivity.
Defined.

Lemma trigger_renders_loading_witness :
  ∃ w', host_step sample_parser (world_after events_hidden_result) Trigger
        = Some w'
    ∧ render_result (component w')
      = Some {| result_loading := Some true; result_data := None;
                result_error := None |}.
Proof.
  apply (trigger_renders_loading sample_parser sample_props context_A
           sample_component events_hidden_result).
  - reflexivity.
  - reflexivity.
  - right. vm_compute. discriminate.
Defined.

Lemma same_client_result_visible_witness :
  (render_result (component (world_after events_failed)) = None
   ↔ count_triggers events_failed = 0%nat)
  ∧ ∃ w', host_step sample_parser (world_after events_failed) Trigger
          = Some w'
      ∧ render_result (component w')
        = Some {| result_loading := Some true; result_data := None;
                  result_error := None |}.
Proof.
  apply (same_client_result_visible sample_parser sample_props context_A
           sample_component events_failed); reflexivity.
Defined.

Lemma counter_counts_triggers_witness :
  mostRecentMutationId (component (world_after events_latest_settled)) = 2.
Proof.
  apply (counter_counts_triggers sample_parser sample_props context_A
           sample_component events_latest_settled); reflexivity.
Defined.

Lemma new_token_exceeds_inflight_witness :
  ∃ w' call',
    host_step sample_parser world_pending Trigger = Some w'
    ∧ inflight w' !! mostRecentMutationId (component w') = Some call'
    ∧ call_mutationId call' = mostRecentMutationId (component w')
    ∧ 1 < mostRecentMutationId (component w')
    ∧ inflight w' !! 1 = Some call_1.
Proof.
  apply (new_token_exceeds_inflight sample_parser sample_props context_A
           sample_component [Trigger] world_pending 1 call_1);
    reflexivity.
Defined.

Lemma superseded_call_never_writes_witness :
  state (component
           (world_after
              [Trigger; Trigger; Reconfigure other_props context_A;
               Settle 1 (Resolved response_X)]))
  = loading_state false.
Proof.
  apply (superseded_call_never_writes sample_parser sample_props context_A
           sample_component [Trigger] [Reconfigure other_props context_A]
           world_pending (world_after [Trigger; Trigger])
           (world_after [Trigger; Trigger; Reconfigure other_props context_A])
           (world_after
              [Trigger; Trigger; Reconfigure other_props context_A;
               Settle 1 (Resolved response_X)])
           1 call_1 (Resolved response_X)); reflexivity.
Defined.

Lemma settled_state_is_stable_witness :
  state (component
           (world_after (events_latest_settled ++ [Settle 1 (Rejected "E")])))
  = outcome_state false (Resolved response_Y)
  ∧ render (component
              (world_after
                 (events_latest_settled ++ [Settle 1 (Rejected "E")])))
    = render (component (world_after events_latest_settled)).
Proof.
  apply (settled_state_is_stable sample_parser sample_props context_A
           sample_component events_latest_settled
           [Settle 1 (Rejected "E")]
           (world_after events_latest_settled)
           (world_after
              (events_latest_settled ++ [Settle 1 (Rejected "E")]))).
  - reflexivity.
  - reflexivity.
  - vm_compute. discriminate.
  - reflexivity.
  - reflexivity.
Defined.

Lemma props_change_keeps_state_witness :
  host_step sample_parser world_pending (Reconfigure other_props context_A)
  = Some {| component := with_props (component world_pending) other_props;
            inflight := inflight world_pending;
            callbacks := callbacks world_pending |}.
Proof.
  apply (props_change_keeps_state sample_parser world_pending other_props
           context_A); reflexivity.
Defined.

Lemma callback_taken_from_current_props_witness :
  (∃ w2, host_step sample_parser
           (world_after [Trigger; Reconfigure other_props context_A])
           (Settle 1 (Resolved response_X)) = Some w2
     ∧ callbacks w2 = [])
  ∧ (∃ w2, host_step sample_parser
             (world_after [Trigger; Reconfigure other_props context_A])
             (Settle 1 (Rejected "E")) = Some w2
       ∧ callbacks w2 = [ErrorCall "report" "E"]).
Proof.
  apply (callback_taken_from_current_props sample_parser world_pending
           (world_after [Trigger; Reconfigure other_props context_A])
           1 call_1 other_props context_A response_X "E"); reflexivity.
Defined.

(** Two calls; the stale one resolves and its [onCompleted] throws, then
    the current one resolves. *)
Definition events_thrown : list (@Event string string nat nat nat string) :=
  [Trigger; Trigger; SettleThrowing 1 (Resolved response_X) "thrown";
   Settle 2 (Resolved response_Y)].

Lemma callbacks_come_from_settlements_witness :
  callbacks (world_after events_thrown)
  = [CompletedCall "onCompleted" (Some "X"); ErrorCall "onError" "thrown";
     CompletedCall "onCompleted" (Some "Y")]
  ∧ ∃ called,
      callbacks (world_after events_thrown) = [] ++ called
      ∧ (length called ≤ 2 + 1)%nat
      ∧ (∀ f d, CompletedCall f d ∈ called →
           ∃ ev response,
             ev ∈ events_thrown ∧ outcome_of ev = Some (Resolved response)
             ∧ response_data response = d)
      ∧ (∀ f e, ErrorCall f e ∈ called →
           ∃ ev, ev ∈ events_thrown
                 ∧ (outcome_of ev = Some (Rejected e)
                    ∨ thrown_of ev = Some e)).
Proof.
  split; [reflexivity|].
  apply (callbacks_come_from_settlements sample_parser events_thrown
           (mount sample_component)).
  reflexivity.
Defined.

Lemma reconfigured_trigger_uses_new_client_witness :
  ∃ w2,
    host_step sample_parser
      (world_after [Trigger; Reconfigure other_props context_B]) Trigger
    = Some w2
    ∧ inflight w2 !! 2
      = Some {| call_client := Some 2%nat;
                call_options := options_of other_props;
                call_mutationId := 2 |}
    ∧ ∀ id call, inflight world_pending !! id = Some call →
                 inflight w2 !! id = Some call.
Proof.
  apply (reconfigured_trigger_uses_new_client sample_parser sample_props
           context_A sample_component [Trigger] world_pending
           (world_after [Trigger; Reconfigure other_props context_B])
           other_props context_B); reflexivity.
Defined.

Lemma only_mutations_are_sent_witness :
  type (sample_parser (opt_mutation (call_options call_1)))
  = DocumentType.Mutation
  ∧ call_mutationId call_1 = 1
  ∧ 0 < 1 ≤ mostRecentMutationId
             (component
                (world_after [Trigger; Reconfigure other_props context_B])).
Proof.
  apply (only_mutations_are_sent sample_parser sample_props context_A
           sample_component [Trigger; Reconfigure other_props context_B]
           (world_after [Trigger; Reconfigure other_props context_B])
           1 call_1); reflexivity.
Defined.

Lemma latest_outcome_is_rendered_witness :
  ∃ w1 w2,
    host_step sample_parser (world_after events_failed) Trigger = Some w1
    ∧ host_step sample_parser w1
        (Settle (mostRecentMutationId (component w1))
           (Resolved response_Y))
      = Some w2
    ∧ render_result (component w2)
      = Some {| result_loading := Some false; result_data := Some "Y";
                result_error := None |}.
Proof.
  apply (latest_outcome_is_rendered sample_parser sample_props context_A
           sample_component events_failed (world_after events_failed)
           (Resolved response_Y)).
  - reflexivity.
  - reflexivity.
  - left. reflexivity.
Defined.

(** * Where the claims fail on the code *)

(** C1 fails on the code, by the defect of C7: call 1 is in flight when
    the client changes, which hides the state and leaves it loading. Calls
    2 and 3 are then issued in a row and all three settle, call 3 with Y.
    The state has the data of call 3, but [notCalled] is still true and
    [render] passes no result, where the same calls on a component whose
    client did not change leave the outcome of call 3 for [render]. *)
Example burst_after_client_change_stays_hidden :
  state ∘ component
    <$> run sample_parser (mount sample_component)
          [Trigger; Reconfigure sample_props context_B; Trigger; Trigger;
           Settle 3 (Resolved response_Y); Settle 2 (Rejected "E");
           Settle 1 (Resolved response_X)]
  = Some {| notCalled := true; error := None; data := Some "Y";
            loading := Some false |}
  ∧ render_result ∘ component
      <$> run sample_parser (mount sample_component)
            [Trigger; Reconfigure sample_props context_B; Trigger; Trigger;
             Settle 3 (Resolved response_Y); Settle 2 (Rejected "E");
             Settle 1 (Resolved response_X)]
    = Some None
  ∧ render_result ∘ component
      <$> run sample_parser (mount sample_component)
            [Trigger; Trigger; Trigger;
             Settle 3 (Resolved response_Y); Settle 2 (Rejected "E");
             Settle 1 (Resolved response_X)]
    = Some (Some {| result_loading := Some false; result_data := Some "Y";
                    result_error := None |}).
Proof. split_and!; vm_compute; reflexivity. Qed.



